(** * CRSqlite ws-client: the sync session and its exclusive start

    A shallow embedding of the module that defines the session class
    [SyncedDB], [createSyncedDB], [createSyncedDB_Exclusive] and
    [startSync], together with the collaborators it imports and drives:
    the database handle ([./DB.js]), the transport
    ([./transport/Transport.js]) and the two change streams
    ([./streams/InboundStream.js], [./streams/OutboundStream.js]).

    The session is an object graph that several objects alias (the
    session, both streams and the transport's callback slots all hold the
    same [db] and [transport]); it is modelled as one store, [Session],
    and every method is a computation over that store. *)

From Stdlib Require Import ZArith.
From stdpp Require Import base tactics option list gmap strings.

(** ** Wire data *)

Abbreviation SiteId := string (only parsing).
Abbreviation VersionFrontier := (gmap string Z) (only parsing).

(** Modelled from the spec: the message tags of [@vlcn.io/ws-common],
    which is not among the sources. The session names only
    [tags.AnnouncePresence]; the remaining tags are kept apart by number. *)
Inductive Tag :=
  | AnnouncePresence
  | OtherTag (n : nat).

(** The object literal built in [SyncedDB.start]. *)
Record PresenceAnnouncement := {
  _tag : Tag;
  lastSeens : VersionFrontier;
  schemaName : string;
  schemaVersion : Z;
  sender : SiteId
}.

Record Change := {
  version : Z;
  payload : string
}.

(** A batch of changes of one peer, from [startVersion] to
    [finalVersion]. The wire format of batches belongs to the transport;
    this is what section 4.2 of the specification says about them. *)
Record Batch := {
  peer : SiteId;
  startVersion : Z;
  finalVersion : Z;
  changes : list Change
}.

(** What a transport is asked to put on the wire. *)
Inductive Message :=
  | MsgAnnouncePresence (m : PresenceAnnouncement)
  | MsgRequestResend (whose : SiteId) (since : Z).

(** ** The collaborators *)

(** Modelled from the spec: the database handle of [./DB.js], which is
    not among the sources, as far as the session and the streams use it:
    [siteid], the two queries of [start] (a rejected promise is [None]),
    and the changes applied so far. [accepts] is the storage layer's
    verdict on a change set. *)
Record DB := {
  siteid : SiteId;
  getLastSeens : option VersionFrontier;
  getSchemaNameAndVersion : option (string * Z);
  applied : list (SiteId * Change);
  accepts : SiteId → list Change → bool
}.

(** The bound stream methods that the constructor stores in the
    transport's callback slots. *)
Inductive Handler :=
  | receiveChangesHandler
  | startStreamingHandler
  | resetStreamHandler.

(** Modelled from the spec: the transport of [./transport/Transport.js],
    which is not among the sources: three mutable callback slots, the
    messages it was asked to send, and the number of [close()] calls it
    received. *)
Record Transport := {
  onChangesReceived : option Handler;
  onStartStreaming : option Handler;
  onResetStream : option Handler;
  sent : list Message;
  closeCalls : nat
}.

(** Modelled from the spec: the state of an inbound stream, the frontier
    it has recorded per peer and whether [prepare] has run. *)
Record InboundStreamState := {
  recorded : VersionFrontier;
  prepared : bool
}.

(** Modelled from the spec: the state of an outbound stream, as far as
    the session can change it: the number of [stop()] calls it received. *)
Record OutboundStreamState := {
  stopCalls : nat
}.

(** The calls a session makes on its collaborators, in program order. *)
Inductive Call :=
  | CallGetLastSeens
  | CallGetSchemaNameAndVersion
  | CallPrepare (f : VersionFrontier)
  | CallAnnouncePresence (m : PresenceAnnouncement)
  | CallOutboundStop
  | CallClose.

(** The object graph of one [SyncedDB]: its four private fields, the log
    of collaborator calls, and how often [start] and [stop] were entered. *)
Record Session := {
  db : DB;
  transport : Transport;
  inboundStream : InboundStreamState;
  outboundStream : OutboundStreamState;
  calls : list Call;
  startEntered : nat;
  stopEntered : nat
}.

Definition set_db (f : DB → DB) (s : Session) : Session :=
  {| db := f (db s); transport := transport s;
     inboundStream := inboundStream s; outboundStream := outboundStream s;
     calls := calls s; startEntered := startEntered s;
     stopEntered := stopEntered s |}.

Definition set_transport (f : Transport → Transport) (s : Session) : Session :=
  {| db := db s; transport := f (transport s);
     inboundStream := inboundStream s; outboundStream := outboundStream s;
     calls := calls s; startEntered := startEntered s;
     stopEntered := stopEntered s |}.

Definition set_inboundStream (f : InboundStreamState → InboundStreamState)
    (s : Session) : Session :=
  {| db := db s; transport := transport s;
     inboundStream := f (inboundStream s); outboundStream := outboundStream s;
     calls := calls s; startEntered := startEntered s;
     stopEntered := stopEntered s |}.

Definition set_outboundStream (f : OutboundStreamState → OutboundStreamState)
    (s : Session) : Session :=
  {| db := db s; transport := transport s;
     inboundStream := inboundStream s; outboundStream := f (outboundStream s);
     calls := calls s; startEntered := startEntered s;
     stopEntered := stopEntered s |}.

Definition log_call (c : Call) (s : Session) : Session :=
  {| db := db s; transport := transport s;
     inboundStream := inboundStream s; outboundStream := outboundStream s;
     calls := calls s ++ [c]; startEntered := startEntered s;
     stopEntered := stopEntered s |}.

Definition enter_start (s : Session) : Session :=
  {| db := db s; transport := transport s;
     inboundStream := inboundStream s; outboundStream := outboundStream s;
     calls := calls s; startEntered := S (startEntered s);
     stopEntered := stopEntered s |}.

Definition enter_stop (s : Session) : Session :=
  {| db := db s; transport := transport s;
     inboundStream := inboundStream s; outboundStream := outboundStream s;
     calls := calls s; startEntered := startEntered s;
     stopEntered := S (stopEntered s) |}.

(** ** Methods as computations over the session

    [M A] is a method body: it updates the session and either returns a
    value or throws (an [await] on a rejected promise); what was done
    before the throw stays done. *)
Definition M (A : Type) : Type := Session → Session * option A.

Definition ret {A} (a : A) : M A := λ s, (s, Some a).
Definition throw {A} : M A := λ s, (s, None).
Definition bind {A B} (m : M A) (k : A → M B) : M B :=
  λ s, match m s with
       | (s', Some a) => k a s'
       | (s', None) => (s', None)
       end.
Definition gets {A} (f : Session → A) : M A := λ s, (s, Some (f s)).
Definition modify (f : Session → Session) : M unit := λ s, (f s, Some tt).
Definition await {A} (p : option A) : M A :=
  match p with Some a => ret a | None => throw end.

Declare Scope session_scope.
Delimit Scope session_scope with session.
Notation "x <- m ;; k" := (bind m (λ x, k))
  (at level 100, m at next level, right associativity) : session_scope.
Notation "m ;;; k" := (bind m (λ _, k))
  (at level 100, right associativity) : session_scope.
#[local] Open Scope session_scope.

Definition record_applied (p : SiteId) (cs : list Change) (d : DB) : DB :=
  {| siteid := siteid d;
     getLastSeens := getLastSeens d;
     getSchemaNameAndVersion := getSchemaNameAndVersion d;
     applied := applied d ++ map (pair p) cs;
     accepts := accepts d |}.

(** The database handle's operations. *)
Module DBHandle.

Definition getLastSeens : M VersionFrontier :=
  modify (log_call CallGetLastSeens) ;;;
  d <- gets db ;;
  await (getLastSeens d).

Definition getSchemaNameAndVersion : M (string * Z) :=
  modify (log_call CallGetSchemaNameAndVersion) ;;;
  d <- gets db ;;
  await (getSchemaNameAndVersion d).

(** Modelled from the spec: the change-apply operation of [./DB.js],
    which is not among the sources. The handle applies a change set of
    one peer as a whole or rejects it as a whole. *)
Definition applyChanges (p : SiteId) (cs : list Change) : M unit :=
  d <- gets db ;;
  if accepts d p cs
  then modify (set_db (record_applied p cs))
  else throw.

End DBHandle.

(** The transport's operations. *)
Module TransportOps.

Definition send (m : Message) (t : Transport) : Transport :=
  {| onChangesReceived := onChangesReceived t;
     onStartStreaming := onStartStreaming t;
     onResetStream := onResetStream t;
     sent := sent t ++ [m];
     closeCalls := closeCalls t |}.

(** Modelled from the spec: [announcePresence(message)] hands one
    message to the wire. *)
Definition announcePresence (m : PresenceAnnouncement) : M unit :=
  modify (log_call (CallAnnouncePresence m)) ;;;
  modify (set_transport (send (MsgAnnouncePresence m))).

(** Modelled from the spec: [close()]; the transport counts the call. *)
Definition close : M unit :=
  modify (log_call CallClose) ;;;
  modify (set_transport (λ t,
    {| onChangesReceived := onChangesReceived t;
       onStartStreaming := onStartStreaming t;
       onResetStream := onResetStream t;
       sent := sent t;
       closeCalls := S (closeCalls t) |})).

(** Modelled from the spec: the signal by which a stream asks a peer to
    resend from a version ([./transport/Transport.js] is not among the
    sources). *)
Definition requestResend (whose : SiteId) (since : Z) : M unit :=
  modify (set_transport (send (MsgRequestResend whose since))).

End TransportOps.

(** Modelled from the spec: [./streams/InboundStream.js] is not among
    the sources. Section 4.2 of the specification gives its contract:
    [prepare] seeds the per-peer frontier; [receiveChanges] (a) discards
    the already-seen prefix of a batch that starts at or below the
    frontier and applies the rest, (b) asks the peer to resend when the
    batch starts beyond the frontier plus one, (c) otherwise applies the
    batch and advances the frontier to the batch's final version. The
    frontier moves only after the database handle has applied the
    changes; a rejected apply is thrown to the caller. The frontier being
    the highest version delivered from a peer (section 3), applying the
    new suffix in case (a) advances it like case (c) does; a batch with
    no new change is a duplicate and moves nothing. A peer without a
    recorded frontier is at version 0. *)
Module InboundStream.

Inductive Outcome :=
  | Applied
  | Duplicate
  | GapRequested.

#[global] Instance Outcome_eq_dec : EqDecision Outcome.
Proof. solve_decision. Defined.

Definition new : InboundStreamState :=
  {| recorded := ∅; prepared := false |}.

Definition frontierOf (p : SiteId) (i : InboundStreamState) : Z :=
  default 0%Z (recorded i !! p).

(** Modelled from the spec: [prepare(frontier)] seeds the per-peer
    expectation state. *)
Definition prepare (frontier : VersionFrontier) : M unit :=
  modify (log_call (CallPrepare frontier)) ;;;
  modify (set_inboundStream (λ _,
    {| recorded := frontier; prepared := true |})).

Definition advance (p : SiteId) (v : Z) : M unit :=
  modify (set_inboundStream (λ i,
    {| recorded := <[p := v]> (recorded i); prepared := prepared i |})).

(** Modelled from the spec: applying counts as one step; the frontier
    advances only after the database handle has taken the changes. *)
Definition applyAndAdvance (b : Batch) (cs : list Change) : M Outcome :=
  DBHandle.applyChanges (peer b) cs ;;;
  advance (peer b) (finalVersion b) ;;;
  ret Applied.

(** Modelled from the spec: [receiveChanges(batch)], cases (a), (b) and
    (c) of section 4.2 in this order. *)
Definition receiveChanges (b : Batch) : M Outcome :=
  f <- gets (λ s, frontierOf (peer b) (inboundStream s)) ;;
  if bool_decide (startVersion b ≤ f)%Z then
    match filter (λ c, f < version c)%Z (changes b) with
    | [] => ret Duplicate
    | suffix => applyAndAdvance b suffix
    end
  else if bool_decide (f + 1 < startVersion b)%Z then
    TransportOps.requestResend (peer b) f ;;;
    ret GapRequested
  else applyAndAdvance b (changes b).

End InboundStream.

(** Modelled from the spec: [./streams/OutboundStream.js] is not among
    the sources; the session only ever calls its [stop]. *)
Module OutboundStream.

Definition new : OutboundStreamState := {| stopCalls := 0 |}.

(** Modelled from the spec: [stop()] of the outbound stream. *)
Definition stop : M unit :=
  modify (log_call CallOutboundStop) ;;;
  modify (set_outboundStream (λ o, {| stopCalls := S (stopCalls o) |})).

End OutboundStream.

(** ** class SyncedDB *)
Module SyncedDB.

(** [constructor(db, transport)]: stores both, creates the two streams
    and assigns the three callback slots of the transport. *)
Definition constructor (db : DB) (transport : Transport) : Session :=
  {| db := db;
     transport :=
       {| onChangesReceived := Some receiveChangesHandler;
          onStartStreaming := Some startStreamingHandler;
          onResetStream := Some resetStreamHandler;
          sent := sent transport;
          closeCalls := closeCalls transport |};
     inboundStream := InboundStream.new;
     outboundStream := OutboundStream.new;
     calls := [];
     startEntered := 0;
     stopEntered := 0 |}.

(** [async start()] *)
Definition start : M unit :=
  modify enter_start ;;;
  lastSeens <- DBHandle.getLastSeens ;;
  sv <- DBHandle.getSchemaNameAndVersion ;;
  let '(schemaName, schemaVersion) := sv in
  InboundStream.prepare lastSeens ;;;
  d <- gets db ;;
  TransportOps.announcePresence
    {| _tag := AnnouncePresence;
       lastSeens := lastSeens;
       schemaName := schemaName;
       schemaVersion := schemaVersion;
       sender := siteid d |}.

(** [stop()] *)
Definition stop : M bool :=
  modify enter_stop ;;;
  OutboundStream.stop ;;;
  TransportOps.close ;;;
  ret true.

(** A session is running when it was started and not stopped. *)
Definition running (s : Session) : bool :=
  bool_decide (0 < startEntered s) && bool_decide (stopEntered s = 0).

End SyncedDB.

(** The transport handing a received batch to whatever sits in its
    [onChangesReceived] slot; [None] when the slot is empty or holds
    another handler. *)
Definition deliverChanges (b : Batch) : M (option InboundStream.Outcome) :=
  h <- gets (λ s, onChangesReceived (transport s)) ;;
  match h with
  | Some receiveChangesHandler =>
      o <- InboundStream.receiveChanges b ;; ret (Some o)
  | _ => ret None
  end.

Definition db0 : DB :=
  {| siteid := "a1";
     getLastSeens := Some {[ "b2" := 4%Z ]};
     getSchemaNameAndVersion := Some ("notes", 7%Z);
     applied := [];
     accepts := λ _ _, true |}.
Definition t0 : Transport :=
  {| onChangesReceived := None; onStartStreaming := None;
     onResetStream := None; sent := []; closeCalls := 0 |}.
Definition b0 : Batch :=
  {| peer := "b2"; startVersion := 1; finalVersion := 2;
     changes := [ {| version := 1; payload := "x" |};
                  {| version := 2; payload := "y" |} ] |}.


(** ** createSyncedDB, createSyncedDB_Exclusive and startSync

    Several execution contexts (tabs, workers) run the module side by
    side. Each has its own module-level [locks] map; all of them share the
    host's lock manager ([navigator.locks]). Within a context code runs to
    completion between asynchronous boundaries, so an execution is a
    sequence of atomic steps: a call of [createSyncedDB_Exclusive], the
    lock manager running a request's callback, the promise of
    [createSyncedDB] being fulfilled, its [then] callback, a call of a
    controller's [stop], and the lock manager releasing a lock whose
    callback promise has settled. *)
Module Exclusive.

(** [./config.js] is not among the sources; its two providers are taken
    as given. A database provider whose promise rejects yields [None]. *)
Record Config (T : Type) := {
  dbProvider : string → option DB;
  transportProvider : string → T → Transport
}.
Arguments dbProvider {T}.
Arguments transportProvider {T}.

(** How far the asynchronous work of one call has come. *)
Inductive Phase :=
  | Waiting       (* the lock request is queued *)
  | Skipped       (* the lock callback found stopRequested and returned *)
  | Creating      (* the lock callback called startSync *)
  | Constructed   (* createSyncedDB fulfilled with a session *)
  | Delivered.    (* the then-callback of startSync has run *)

#[global] Instance Phase_eq_dec : EqDecision Phase.
Proof. solve_decision. Defined.

(** One call of [createSyncedDB_Exclusive]: its arguments, the three
    [let] variables of its closure, and the session that [startSync]
    creates for it. Sessions and [hold] promises are referred to by the
    number of the call they belong to; [releaser] is the resolve
    function of the call's own [hold]. *)
Record Invocation (T : Type) := {
  ctx : nat;
  dbname : string;
  transportOptions : T;
  stopRequested : bool;
  dbVar : option nat;
  holdResolved : bool;
  phase : Phase;
  session : option Session
}.
Arguments ctx {T}.
Arguments dbname {T}.
Arguments transportOptions {T}.
Arguments stopRequested {T}.
Arguments dbVar {T}.
Arguments holdResolved {T}.
Arguments phase {T}.
Arguments session {T}.

(** The contexts' [locks] maps (keyed by context and database name), and
    the lock manager: who holds each name and which requests wait. *)
Record World (T : Type) := {
  invocations : list (Invocation T);
  locks : gmap (nat * string) nat;
  held : gmap string nat;
  pending : list nat
}.
Arguments invocations {T}.
Arguments locks {T}.
Arguments held {T}.
Arguments pending {T}.

(** Name resolution for the identifier [db]: inside the callback given
    to [startSync] the parameter [db] shadows the [let db] of
    [createSyncedDB_Exclusive]. *)
Record Scope := {
  param_db : option (option nat);
  outer_db : option nat
}.

Definition read_db (sc : Scope) : option nat :=
  match param_db sc with
  | Some v => v
  | None => outer_db sc
  end.

Definition assign_db (v : option nat) (sc : Scope) : Scope :=
  match param_db sc with
  | Some _ => {| param_db := Some v; outer_db := outer_db sc |}
  | None => {| param_db := None; outer_db := v |}
  end.

Section Steps.
Context {T : Type} (config : Config T).

Definition init : World T :=
  {| invocations := []; locks := ∅; held := ∅; pending := [] |}.

Definition set_invocation (c : nat) (f : Invocation T → Invocation T)
    (w : World T) : World T :=
  {| invocations := alter f c (invocations w);
     locks := locks w; held := held w; pending := pending w |}.

Definition set_phase (p : Phase) (i : Invocation T) : Invocation T :=
  {| ctx := ctx i; dbname := dbname i;
     transportOptions := transportOptions i;
     stopRequested := stopRequested i; dbVar := dbVar i;
     holdResolved := holdResolved i; phase := p;
     session := session i |}.

Definition set_session (s : option Session) (i : Invocation T) :
    Invocation T :=
  {| ctx := ctx i; dbname := dbname i;
     transportOptions := transportOptions i;
     stopRequested := stopRequested i; dbVar := dbVar i;
     holdResolved := holdResolved i; phase := phase i;
     session := s |}.

Definition set_stopRequested (b : bool) (i : Invocation T) :
    Invocation T :=
  {| ctx := ctx i; dbname := dbname i;
     transportOptions := transportOptions i;
     stopRequested := b; dbVar := dbVar i;
     holdResolved := holdResolved i; phase := phase i;
     session := session i |}.

Definition set_dbVar (v : option nat) (i : Invocation T) : Invocation T :=
  {| ctx := ctx i; dbname := dbname i;
     transportOptions := transportOptions i;
     stopRequested := stopRequested i; dbVar := v;
     holdResolved := holdResolved i; phase := phase i;
     session := session i |}.

(** Calling the resolve function of a [hold] promise. *)
Definition resolve_hold (i : Invocation T) : Invocation T :=
  {| ctx := ctx i; dbname := dbname i;
     transportOptions := transportOptions i;
     stopRequested := stopRequested i; dbVar := dbVar i;
     holdResolved := true; phase := phase i;
     session := session i |}.

(** The closure of a new call, lines 80-85: [stopRequested = false],
    [db = null], and a [hold] promise that is not resolved. *)
Definition fresh (cx : nat) (name : string) (opts : T) : Invocation T :=
  {| ctx := cx; dbname := name; transportOptions := opts;
     stopRequested := false; dbVar := None;
     holdResolved := false; phase := Waiting;
     session := None |}.

(** [createSyncedDB_Exclusive(dbname, transportOptions)], lines 80-100
    and the [return]: the new closure, [locks.set], and the lock
    request. The call gets the next free number. *)
Definition createSyncedDB_Exclusive (cx : nat) (name : string) (opts : T)
    (w : World T) : World T :=
  let c := length (invocations w) in
  {| invocations := invocations w ++ [fresh cx name opts];
     locks := <[(cx, name) := c]> (locks w);
     held := held w;
     pending := pending w ++ [c] |}.

(** The callback of [navigator.locks.request], lines 88-100. The lock
    manager runs it for a waiting request once nobody holds the name; which
    of several waiting requests it picks is left open. Returning
    [undefined] gives the lock back at once; returning [hold] keeps it
    until [hold] is resolved. *)
Definition lockCallback (c : nat) (w : World T) : option (World T) :=
  i ← invocations w !! c;
  if bool_decide (c ∈ pending w ∧ held w !! dbname i = None) then
    let w' :=
      {| invocations := invocations w; locks := locks w;
         held := held w;
         pending := filter (λ r, r ≠ c) (pending w) |} in
    if stopRequested i then
      Some (set_invocation c (set_phase Skipped) w')
    else
      Some (set_invocation c (set_phase Creating)
              {| invocations := invocations w'; locks := locks w';
                 held := <[dbname i := c]> (held w');
                 pending := pending w' |})
  else None.

(** The lock manager releasing a held lock whose callback promise,
    [hold], has been resolved. *)
Definition releaseLock (c : nat) (w : World T) : option (World T) :=
  i ← invocations w !! c;
  if bool_decide (held w !! dbname i = Some c) && holdResolved i then
    Some {| invocations := invocations w; locks := locks w;
            held := delete (dbname i) (held w);
            pending := pending w |}
  else None.

(** [createSyncedDB(dbname, transportOptions)], lines 58-65, reaching
    its [return]: the awaited database, the transport, the session. *)
Definition createSyncedDB (name : string) (opts : T) : option Session :=
  d ← dbProvider config name;
  Some (SyncedDB.constructor d (transportProvider config name opts)).

Definition createSyncedDB_fulfilled (c : nat) (w : World T) :
    option (World T) :=
  i ← invocations w !! c;
  if bool_decide (phase i = Creating) then
    s ← createSyncedDB (dbname i) (transportOptions i);
    Some (set_invocation c
            (λ i, set_phase Constructed (set_session (Some s) i)) w)
  else None.

(** The arrow function passed to [startSync], lines 92-98, called with
    the session of call [param]. Its assignment to [db] is resolved in
    the scope where the parameter is visible. *)
Definition cb (i : Invocation T) (param : nat) : bool * Invocation T :=
  if stopRequested i then (false, i)
  else
    let sc := {| param_db := Some (Some param); outer_db := dbVar i |} in
    let sc' := assign_db (read_db sc) sc in
    (true, set_dbVar (outer_db sc') i).

(** The [then] callback of [startSync], lines 121-125. [start] is
    taken as one step: no other code touches the session meanwhile. *)
Definition startSync_then (c : nat) (w : World T) : option (World T) :=
  i ← invocations w !! c;
  if bool_decide (phase i = Constructed) then
    s ← session i;
    let '(go, i') := cb i c in
    let s' := if go then (SyncedDB.start s).1 else s in
    Some (set_invocation c
            (λ _, set_phase Delivered (set_session (Some s') i')) w)
  else None.

(** The controller's [stop], lines 103-112. *)
Definition stop (c : nat) (w : World T) : option (World T) :=
  i ← invocations w !! c;
  let w1 := set_invocation c (set_stopRequested true) w in
  let w2 :=
    match locks w1 !! (ctx i, dbname i) with
    | Some releaser => set_invocation releaser resolve_hold w1
    | None => w1
    end in
  let sc := {| param_db := None; outer_db := dbVar i |} in
  match read_db sc with
  | Some r =>
      Some (set_invocation r
              (λ j, set_session
                      ((λ s, (SyncedDB.stop s).1) <$> session j) j) w2)
  | None => Some w2
  end.

Inductive Label :=
  | Create (cx : nat) (name : string) (opts : T)
  | Grant (c : nat)
  | Fulfil (c : nat)
  | Then (c : nat)
  | Stop (c : nat)
  | Release (c : nat).

Definition step (l : Label) (w : World T) : option (World T) :=
  match l with
  | Create cx name opts => Some (createSyncedDB_Exclusive cx name opts w)
  | Grant c => lockCallback c w
  | Fulfil c => createSyncedDB_fulfilled c w
  | Then c => startSync_then c w
  | Stop c => stop c w
  | Release c => releaseLock c w
  end.

(** An execution: every step of the list is enabled in turn. *)
Fixpoint run (ls : list Label) (w : World T) : option (World T) :=
  match ls with
  | [] => Some w
  | l :: ls' => w' ← step l w; run ls' w'
  end.

(** The effect of the then-callback on the call it belongs to. *)
Definition delivered (c : nat) (i : Invocation T) : Invocation T :=
  match session i with
  | Some s =>
      let '(go, i') := cb i c in
      let s' := if go then (SyncedDB.start s).1 else s in
      set_phase Delivered (set_session (Some s') i')
  | None => i
  end.

(** The effect of [stop] of call [c0] on call [c]: it sets its own
    [stopRequested], resolves the [hold] of the call whose releaser
    sits in [locks], and stops the session its [db] variable names. *)
Definition stopped_by (w : World T) (c0 : nat) (i0 : Invocation T)
    (c : nat) (i : Invocation T) : Invocation T :=
  let i1 := if decide (c0 = c) then set_stopRequested true i else i in
  let i2 :=
    match locks w !! (ctx i0, dbname i0) with
    | Some r => if decide (r = c) then resolve_hold i1 else i1
    | None => i1
    end in
  match dbVar i0 with
  | Some r =>
      if decide (r = c)
      then set_session ((λ s, (SyncedDB.stop s).1) <$> session i2) i2
      else i2
  | None => i2
  end.

(** What one enabled step makes of call [c], whose state was [i]. *)
Definition after (l : Label) (w : World T) (c : nat) (i : Invocation T) :
    Invocation T :=
  match l with
  | Create _ _ _ => i
  | Grant c0 =>
      if decide (c0 = c)
      then set_phase (if stopRequested i then Skipped else Creating) i
      else i
  | Fulfil c0 =>
      if decide (c0 = c)
      then match createSyncedDB (dbname i) (transportOptions i) with
           | Some s => set_phase Constructed (set_session (Some s) i)
           | None => i
           end
      else i
  | Then c0 => if decide (c0 = c) then delivered c i else i
  | Stop c0 =>
      match invocations w !! c0 with
      | Some i0 => stopped_by w c0 i0 c i
      | None => i
      end
  | Release _ => i
  end.

Definition started (i : Invocation T) : bool :=
  match session i with
  | Some s => bool_decide (0 < startEntered s)
  | None => false
  end.

Definition runningSession (i : Invocation T) : bool :=
  match session i with
  | Some s => SyncedDB.running s
  | None => false
  end.

(** The calls, by number and context, whose session is running. *)
Definition runningIn (w : World T) : list (nat * nat) :=
  omap (λ '(c, i), if runningSession i then Some (c, ctx i) else None)
       (imap pair (invocations w)).

(** A session that nobody has stopped: [stop] was never entered, the
    outbound stream and the transport have seen no [stop] or [close]
    beyond what the provider's transport came with. *)
Definition untouched (i : Invocation T) (s : Session) : Prop :=
  stopEntered s = 0 ∧
  stopCalls (outboundStream s) = 0 ∧
  closeCalls (transport s) =
    closeCalls (transportProvider config (dbname i) (transportOptions i)).

(** What holds in every world an execution can reach. *)
Record Good (w : World T) : Prop := {
  good_dbVar : ∀ c i, invocations w !! c = Some i → dbVar i = None;
  good_waiting : ∀ c, c ∈ pending w →
    ∃ i, invocations w !! c = Some i ∧ phase i = Waiting;
  good_started : ∀ c i, invocations w !! c = Some i →
    started i = true → phase i = Delivered;
  good_session : ∀ c i s, invocations w !! c = Some i →
    session i = Some s → untouched i s;
  good_releaser : ∀ k r, locks w !! k = Some r →
    r < length (invocations w);
  good_entry : ∀ c i, invocations w !! c = Some i →
    is_Some (locks w !! (ctx i, dbname i))
}.

End Steps.

End Exclusive.

Definition config0 : Exclusive.Config unit :=
  {| Exclusive.dbProvider := λ _, Some db0;
     Exclusive.transportProvider := λ _ _, t0 |}.

(** A session that has started with frontier 4 for peer b2, and batches of
    that peer: the next two versions, a batch far ahead, and one that
    overlaps what was applied. *)
Definition s1 : Session := (SyncedDB.start (SyncedDB.constructor db0 t0)).1.
Definition b5_6 : Batch :=
  {| peer := "b2"; startVersion := 5; finalVersion := 6;
     changes := [ {| version := 5; payload := "p" |};
                  {| version := 6; payload := "q" |} ] |}.
Definition b9 : Batch :=
  {| peer := "b2"; startVersion := 9; finalVersion := 9;
     changes := [ {| version := 9; payload := "t" |} ] |}.
Definition b6_8 : Batch :=
  {| peer := "b2"; startVersion := 6; finalVersion := 8;
     changes := [ {| version := 6; payload := "q" |};
                  {| version := 7; payload := "r" |};
                  {| version := 8; payload := "s" |} ] |}.


(** ** Sequences of received batches *)

(** The transport delivering batches one after the other. A call that
    throws is over; the next batch is received all the same. *)
Fixpoint receiveAll (bs : list Batch) (s : Session) : Session :=
  match bs with
  | [] => s
  | b :: bs' => receiveAll bs' (InboundStream.receiveChanges b s).1
  end.

(** What each call of a sequence returned ([None]: it threw). *)
Fixpoint outcomes (bs : list Batch) (s : Session) :
    list (Batch * option InboundStream.Outcome) :=
  match bs with
  | [] => []
  | b :: bs' =>
      let r := InboundStream.receiveChanges b s in
      (b, r.2) :: outcomes bs' r.1
  end.

(** The final version of the last batch of peer [p] that was applied, or
    [dflt] when none was. *)
Fixpoint lastApplied (p : SiteId) (dflt : Z)
    (h : list (Batch * option InboundStream.Outcome)) : Z :=
  match h with
  | [] => dflt
  | (b, o) :: h' =>
      if bool_decide (peer b = p ∧ o = Some InboundStream.Applied)
      then lastApplied p (finalVersion b) h'
      else lastApplied p dflt h'
  end.

(** A batch whose versions lie within its bounds. *)
Definition wf_batch (b : Batch) : Prop :=
  (startVersion b ≤ finalVersion b)%Z ∧
  Forall (λ c, (version c ≤ finalVersion b)%Z) (changes b).

(** What a session has done to its collaborators. *)
Definition effects (s : Session) : list Call * list Message * nat * nat :=
  (calls s, sent (transport s), closeCalls (transport s),
   stopCalls (outboundStream s)).


(** ** Statements of the specification, read literally *)

(** What [start] appends to the log of calls. *)
Definition start_calls (s : Session) : list Call :=
  drop (length (calls s)) (calls (SyncedDB.start s).1).

(** C6 read literally: a second [stop] does nothing more to the
    collaborators than the first did, and returns [true]. *)
Definition second_stop_is_noop (s : Session) : Prop :=
  let s1 := (SyncedDB.stop s).1 in
  (SyncedDB.stop s1).2 = Some true ∧
  effects (SyncedDB.stop s1).1 = effects s1.

(** C2 read literally: while the inbound stream is unprepared, a batch
    handed over by the transport does not reach [receiveChanges]. *)
Definition no_delivery_before_prepare (s : Session) : Prop :=
  prepared (inboundStream s) = false →
  ∀ b, (deliverChanges b s).2 = Some None.

Import Exclusive.

(** C3 read literally: a [stop] issued while the lock request still waits
    takes the request out of the lock manager's queue. *)
Definition stop_withdraws_request {T} (config : Config T) : Prop :=
  ∀ ls w c i w',
    run config ls init = Some w →
    invocations w !! c = Some i →
    phase i = Waiting →
    stop c w = Some w' →
    c ∉ pending w'.

(** C9 read literally: once nobody holds a name and no request for it
    waits, no context has an entry for the name in its [locks] map. *)
Definition ticket_destroyed_when_idle {T} (config : Config T) : Prop :=
  ∀ ls w cx name,
    run config ls init = Some w →
    held w !! name = None →
    (∀ c i, c ∈ pending w → invocations w !! c = Some i → dbname i ≠ name) →
    locks w !! (cx, name) = None.

(** A call whose controller was stopped and whose session has not been
    started. *)
Definition stopped_unstarted {T} (c : nat) (w : World T) : Prop :=
  ∃ i, invocations w !! c = Some i ∧ stopRequested i = true ∧
       started i = false.

(** No [locks] map holds the releaser of call [c], except possibly under
    the keys that satisfy [Q]. *)
Definition releaser_only_under {T} (Q : nat * string → Prop) (c : nat)
    (w : World T) : Prop :=
  c < length (invocations w) ∧
  ∀ k r, locks w !! k = Some r → r = c → Q k.

(** ** Sample executions

    Worlds reached by [config0] along fixed schedules, for evaluating the
    statements below. *)

Definition world_after (ls : list (@Label unit)) : World unit :=
  default init (run config0 ls init).

Definition invocation_of (c : nat) (w : World unit) : Invocation unit :=
  default (fresh 0 "" tt) (invocations w !! c).

(** Context 0 starts exclusively and then stops its controller. *)
Definition schedule_stop : list (@Label unit) :=
  [Create 0 "db1" tt; Grant 0; Fulfil 0; Then 0; Stop 0].
Definition world_stop : World unit :=
  Eval vm_compute in world_after schedule_stop.
Definition invocation_stop : Invocation unit :=
  Eval vm_compute in invocation_of 0 world_stop.
Definition session_stop : Session :=
  Eval vm_compute in default s1 (session invocation_stop).

(** Context 0 holds the lock for "db1" while context 1 waits. *)
Definition schedule_wait : list (@Label unit) :=
  [Create 0 "db1" tt; Create 1 "db1" tt; Grant 0].
Definition world_wait : World unit :=
  Eval vm_compute in world_after schedule_wait.
Definition invocation_wait : Invocation unit :=
  Eval vm_compute in invocation_of 1 world_wait.
(** Context 1 stops its controller while waiting; later context 0 stops
    too, the lock is released and context 1's request is granted. *)
Definition world_wait_stopped : World unit :=
  Eval vm_compute in world_after (schedule_wait ++ [Stop 1]).
Definition schedule_handover : list (@Label unit) :=
  [Stop 0; Release 0; Grant 1].
Definition world_handover : World unit :=
  Eval vm_compute in
    world_after (schedule_wait ++ [Stop 1] ++ schedule_handover).

(** Context 0 starts, stops, and the lock is released. *)
Definition schedule_idle : list (@Label unit) :=
  [Create 0 "db1" tt; Grant 0; Fulfil 0; Then 0; Stop 0; Release 0].
Definition world_idle : World unit :=
  Eval vm_compute in world_after schedule_idle.

(** Context 0 starts exclusively and then calls [createSyncedDB_Exclusive]
    for the same name again; both controllers are stopped. *)
Definition schedule_first : list (@Label unit) :=
  [Grant 0; Fulfil 0; Then 0].
Definition world_first : World unit :=
  Eval vm_compute in
    world_after (Create 0 "db1" tt :: schedule_first).
Definition world_second : World unit :=
  Eval vm_compute in createSyncedDB_Exclusive 0 "db1" tt world_first.
Definition world_second_stopped : World unit :=
  Eval vm_compute in
    default init (run config0 [Stop 1; Stop 0] world_second).


(** ** Further sample inputs and invariants *)

(** A database handle whose schema query is rejected. *)
Definition db_no_schema : DB :=
  {| siteid := "a1";
     getLastSeens := Some {[ "b2" := 4%Z ]};
     getSchemaNameAndVersion := None;
     applied := [];
     accepts := λ _ _, true |}.

(** A call that is past its lock callback, with [startSync] called, and
    whose [hold] promise nobody has resolved. *)
Definition holding {T} (i : Invocation T) : Prop :=
  (phase i = Creating ∨ phase i = Constructed ∨ phase i = Delivered) ∧
  holdResolved i = false.

(** Every such call is the holder of the lock of its name. *)
Definition holders_hold {T} (w : World T) : Prop :=
  ∀ c i, invocations w !! c = Some i → holding i →
    held w !! dbname i = Some c.

(** Every releaser in a [locks] map sits under the context and name of
    the call it belongs to. *)
Definition keys_own {T} (w : World T) : Prop :=
  ∀ k r, locks w !! k = Some r →
    ∃ i, invocations w !! r = Some i ∧ k = (ctx i, dbname i).



(** Context 0 has started exclusively while context 1 waits. *)
Definition schedule_started_waiting : list (@Label unit) :=
  [Create 0 "db1" tt; Create 1 "db1" tt; Grant 0; Fulfil 0; Then 0].
Definition world_started_waiting : World unit :=
  Eval vm_compute in world_after schedule_started_waiting.

(** * Properties of the session *)

Ltac run_method :=
  cbv [SyncedDB.start SyncedDB.stop DBHandle.getLastSeens
       DBHandle.getSchemaNameAndVersion DBHandle.applyChanges
       InboundStream.prepare InboundStream.advance
       InboundStream.applyAndAdvance OutboundStream.stop
       TransportOps.announcePresence TransportOps.close
       TransportOps.requestResend
       bind modify gets await ret throw]; simpl.

(** C5: when both queries of the database handle succeed, [start] asks for
    the frontier, then for the schema identity, then primes the inbound
    stream with the frontier, and only then announces presence, exactly
    once, with tag [AnnouncePresence], the retrieved frontier, the schema
    name and version, and the handle's site id as sender. *)
Theorem start_announces_presence (s : Session) (f : VersionFrontier)
    (n : string) (v : Z) :
  getLastSeens (db s) = Some f →
  getSchemaNameAndVersion (db s) = Some (n, v) →
  let m := {| _tag := AnnouncePresence; lastSeens := f; schemaName := n;
              schemaVersion := v; sender := siteid (db s) |} in
  let s' := (SyncedDB.start s).1 in
  (SyncedDB.start s).2 = Some tt ∧
  calls s' = calls s ++ [CallGetLastSeens; CallGetSchemaNameAndVersion;
                         CallPrepare f; CallAnnouncePresence m] ∧
  sent (transport s') = sent (transport s) ++ [MsgAnnouncePresence m] ∧
  recorded (inboundStream s') = f ∧
  prepared (inboundStream s') = true.
Proof.
  intros Hf Hs. run_method. rewrite Hf. simpl. rewrite Hs. simpl.
  repeat split. by rewrite <- !app_assoc.
Qed.

(** An instance: the session built from [db0] and [t0]. *)
Lemma start_announces_presence_witness :
  let s := SyncedDB.constructor db0 t0 in
  calls (SyncedDB.start s).1 =
    [CallGetLastSeens; CallGetSchemaNameAndVersion;
     CallPrepare {[ "b2" := 4%Z ]};
     CallAnnouncePresence
       {| _tag := AnnouncePresence; lastSeens := {[ "b2" := 4%Z ]};
          schemaName := "notes"; schemaVersion := 7; sender := "a1" |}].
Proof.
  intros s.
  apply (start_announces_presence s {[ "b2" := 4%Z ]} "notes" 7%Z);
    reflexivity.
Defined.

(** [stop] as a whole: one more call of each collaborator, result [true]. *)
Lemma stop_unfold (s : Session) :
  SyncedDB.stop s =
    ({| db := db s;
        transport := {| onChangesReceived := onChangesReceived (transport s);
                        onStartStreaming := onStartStreaming (transport s);
                        onResetStream := onResetStream (transport s);
                        sent := sent (transport s);
                        closeCalls := S (closeCalls (transport s)) |};
        inboundStream := inboundStream s;
        outboundStream := {| stopCalls := S (stopCalls (outboundStream s)) |};
        calls := (calls s ++ [CallOutboundStop]) ++ [CallClose];
        startEntered := startEntered s;
        stopEntered := S (stopEntered s) |}, Some true).
Proof. reflexivity. Qed.


(** C6, as stated, fails: on a fresh session the second [stop] calls
    [outboundStream.stop()] and [transport.close()] once more. *)
Lemma second_stop_repeats_calls :
  ¬ second_stop_is_noop (SyncedDB.constructor db0 t0).
Proof. intros [_ H]. vm_compute in H. discriminate H. Qed.

(** C6, amended: every [stop], the second like the first, returns [true]
    and calls [outboundStream.stop()] and then [transport.close()]; there
    is no stopped flag, so two calls in a row reach each collaborator
    twice. The database handle, the inbound stream, the callback slots and
    the messages sent are left as they are. *)
Theorem stop_calls_collaborators_every_time (s : Session) :
  let s1 := (SyncedDB.stop s).1 in
  let s2 := (SyncedDB.stop s1).1 in
  (SyncedDB.stop s).2 = Some true ∧
  (SyncedDB.stop s1).2 = Some true ∧
  calls s1 = calls s ++ [CallOutboundStop; CallClose] ∧
  calls s2 = calls s ++ [CallOutboundStop; CallClose;
                         CallOutboundStop; CallClose] ∧
  closeCalls (transport s1) = S (closeCalls (transport s)) ∧
  closeCalls (transport s2) = S (S (closeCalls (transport s))) ∧
  stopCalls (outboundStream s1) = S (stopCalls (outboundStream s)) ∧
  stopCalls (outboundStream s2) = S (S (stopCalls (outboundStream s))) ∧
  db s2 = db s ∧ inboundStream s2 = inboundStream s ∧
  sent (transport s2) = sent (transport s) ∧
  onChangesReceived (transport s2) = onChangesReceived (transport s) ∧
  onStartStreaming (transport s2) = onStartStreaming (transport s) ∧
  onResetStream (transport s2) = onResetStream (transport s).
Proof.
  cbv zeta. repeat (rewrite stop_unfold; simpl).
  repeat split; by rewrite <- ?app_assoc.
Qed.


(** C2, as stated, fails: a session that was constructed and not started
    already has [receiveChanges] in the transport's slot. *)
Lemma delivery_before_prepare :
  ¬ no_delivery_before_prepare (SyncedDB.constructor db0 t0).
Proof.
  intros H. specialize (H eq_refl b0). vm_compute in H. discriminate H.
Qed.


Lemma start_slots (s : Session) :
  onChangesReceived (transport (SyncedDB.start s).1) =
    onChangesReceived (transport s) ∧
  onStartStreaming (transport (SyncedDB.start s).1) =
    onStartStreaming (transport s) ∧
  onResetStream (transport (SyncedDB.start s).1) =
    onResetStream (transport s).
Proof.
  run_method. destruct (getLastSeens (db s)); simpl; [|done].
  destruct (getSchemaNameAndVersion (db s)) as [[??]|]; simpl; done.
Qed.

Lemma start_calls_cases (s : Session) :
  start_calls s = [CallGetLastSeens] ∨
  start_calls s = [CallGetLastSeens; CallGetSchemaNameAndVersion] ∨
  ∃ f m, start_calls s = [CallGetLastSeens; CallGetSchemaNameAndVersion;
                          CallPrepare f; CallAnnouncePresence m].
Proof.
  unfold start_calls. run_method.
  destruct (getLastSeens (db s)) as [f|]; simpl.
  - destruct (getSchemaNameAndVersion (db s)) as [[n v]|]; simpl.
    + right; right. eexists _, _.
      rewrite <- !app_assoc. by rewrite drop_app_length.
    + right; left. rewrite <- !app_assoc. by rewrite drop_app_length.
  - left. by rewrite drop_app_length.
Qed.

(** C2, amended: the constructor, not [start], puts the three stream
    methods into the transport's callback slots, on a session whose
    inbound stream is unprepared and that has called nothing yet; [start]
    leaves the slots as they are, and whenever it announces presence it
    has called [prepare] just before. *)
Theorem wiring_in_constructor_prepare_in_start (d : DB) (t : Transport)
    (s : Session) :
  (let s0 := SyncedDB.constructor d t in
   onChangesReceived (transport s0) = Some receiveChangesHandler ∧
   onStartStreaming (transport s0) = Some startStreamingHandler ∧
   onResetStream (transport s0) = Some resetStreamHandler ∧
   prepared (inboundStream s0) = false ∧
   calls s0 = [] ∧ sent (transport s0) = sent t) ∧
  (onChangesReceived (transport (SyncedDB.start s).1) =
     onChangesReceived (transport s) ∧
   onStartStreaming (transport (SyncedDB.start s).1) =
     onStartStreaming (transport s) ∧
   onResetStream (transport (SyncedDB.start s).1) =
     onResetStream (transport s)) ∧
  (∀ m, CallAnnouncePresence m ∈ start_calls s →
     ∃ f, start_calls s = [CallGetLastSeens; CallGetSchemaNameAndVersion;
                           CallPrepare f; CallAnnouncePresence m] ∧
          prepared (inboundStream (SyncedDB.start s).1) = true).
Proof.
  split; [done|]. split; [apply start_slots|].
  intros m Hm. unfold start_calls in *. revert Hm. run_method.
  destruct (getLastSeens (db s)) as [f|]; simpl.
  - destruct (getSchemaNameAndVersion (db s)) as [[n v]|]; simpl.
    + rewrite <- !app_assoc, drop_app_length. simpl. intros Hm.
      exists f. split; [|done].
      repeat (apply elem_of_cons in Hm as [Hm|Hm]; [try discriminate Hm|]).
      * by inversion Hm.
      * by apply elem_of_nil in Hm.
    + rewrite <- !app_assoc, drop_app_length. simpl. intros Hm.
      repeat (apply elem_of_cons in Hm as [Hm|Hm]; [discriminate Hm|]).
      by apply elem_of_nil in Hm.
  - rewrite drop_app_length. intros Hm.
    repeat (apply elem_of_cons in Hm as [Hm|Hm]; [discriminate Hm|]).
    by apply elem_of_nil in Hm.
Qed.

(** * Properties of the inbound stream *)

Import InboundStream.

(** The three ways a call of [receiveChanges] can end. *)
Lemma applyAndAdvance_cases (b : Batch) (cs : list Change) (s : Session) :
  (accepts (db s) (peer b) cs = true ∧
   applyAndAdvance b cs s =
     (set_inboundStream
        (λ i, {| recorded := <[peer b := finalVersion b]> (recorded i);
                 prepared := prepared i |})
        (set_db (record_applied (peer b) cs) s), Some Applied)) ∨
  (accepts (db s) (peer b) cs = false ∧ applyAndAdvance b cs s = (s, None)).
Proof.
  run_method. destruct (accepts (db s) (peer b) cs); [left|right]; done.
Qed.

Lemma receiveChanges_unfold (b : Batch) (s : Session) :
  receiveChanges b s =
    let f := frontierOf (peer b) (inboundStream s) in
    if bool_decide (startVersion b ≤ f)%Z then
      match filter (λ c, f < version c)%Z (changes b) with
      | [] => (s, Some Duplicate)
      | suffix => applyAndAdvance b suffix s
      end
    else if bool_decide (f + 1 < startVersion b)%Z then
      (set_transport (TransportOps.send (MsgRequestResend (peer b) f)) s,
       Some GapRequested)
    else applyAndAdvance b (changes b) s.
Proof.
  unfold receiveChanges. unfold bind at 1. unfold gets. cbv zeta.
  repeat case_bool_decide; try reflexivity.
  destruct (filter _ (changes b)); reflexivity.
Qed.

Lemma receiveChanges_cases (b : Batch) (s : Session) :
  let f := frontierOf (peer b) (inboundStream s) in
  let r := receiveChanges b s in
  (r = (s, Some Duplicate)) ∨
  ((f + 1 < startVersion b)%Z ∧
   r = (set_transport (TransportOps.send (MsgRequestResend (peer b) f)) s,
        Some GapRequested)) ∨
  (r = (s, None)) ∨
  (∃ cs, ((startVersion b ≤ f)%Z → ∃ c, c ∈ changes b ∧ (f < version c)%Z) ∧
         ((f < startVersion b)%Z → cs = changes b) ∧
         r = (set_inboundStream
                (λ i, {| recorded := <[peer b := finalVersion b]> (recorded i);
                         prepared := prepared i |})
                (set_db (record_applied (peer b) cs) s), Some Applied)).
Proof.
  intros f r. subst r. rewrite receiveChanges_unfold. cbv zeta. fold f.
  case_bool_decide as Hle.
  - destruct (filter _ (changes b)) as [|c cs'] eqn:Hfil.
    { by left. }
    destruct (applyAndAdvance_cases b (c :: cs') s) as [[_ ->]|[_ ->]].
    + right; right; right. exists (c :: cs'). split; [|split; [lia|done]].
      intros _. exists c.
      assert (c ∈ filter (λ c0 : Change, (f < version c0)%Z) (changes b))
        as Hc by (rewrite Hfil; apply elem_of_cons; by left).
      apply list_elem_of_filter in Hc. tauto.
    + right; right; by left.
  - case_bool_decide as Hgap.
    + right; left. by split.
    + destruct (applyAndAdvance_cases b (changes b) s) as [[_ ->]|[_ ->]].
      * right; right; right. exists (changes b). split; [lia|done].
      * right; right; by left.
Qed.

(** One call moves the frontier of a peer exactly when it applies a batch
    of that peer, and then to the batch's final version. *)
Lemma receiveChanges_frontier (b : Batch) (s : Session) (p : SiteId) :
  let r := receiveChanges b s in
  frontierOf p (inboundStream r.1) =
    if bool_decide (peer b = p ∧ r.2 = Some Applied)
    then finalVersion b
    else frontierOf p (inboundStream s).
Proof.
  intros r. subst r.
  destruct (receiveChanges_cases b s) as [->|[[_ ->]|[->|(cs & _ & _ & ->)]]];
    simpl; try (rewrite bool_decide_eq_false_2; [done|by intros [_ ?]]).
  case_bool_decide as Hp.
  - destruct Hp as [<- _]. unfold frontierOf. simpl.
    by rewrite lookup_insert_eq.
  - unfold frontierOf. simpl. rewrite lookup_insert_ne; [done|].
    intros ?. by apply Hp.
Qed.

(** A batch that is applied ends beyond the frontier it met. *)
Lemma applied_beyond_frontier (b : Batch) (s : Session) :
  wf_batch b →
  (receiveChanges b s).2 = Some Applied →
  (frontierOf (peer b) (inboundStream s) < finalVersion b)%Z.
Proof.
  intros [Hsf Hvs] Happ.
  destruct (receiveChanges_cases b s)
    as [Hr|[[_ Hr]|[Hr|(cs & Hpre & _ & Hr)]]];
    rewrite Hr in Happ; simpl in Happ; try discriminate Happ.
  destruct (decide (startVersion b ≤ frontierOf (peer b) (inboundStream s))%Z)
    as [Hle|Hgt]; [|lia].
  destruct (Hpre Hle) as (c & Hc & Hlt).
  rewrite Forall_forall in Hvs. specialize (Hvs c Hc). simpl in Hvs. lia.
Qed.

Lemma receiveChanges_monotone (b : Batch) (s : Session) (p : SiteId) :
  wf_batch b →
  (frontierOf p (inboundStream s) ≤
     frontierOf p (inboundStream (receiveChanges b s).1))%Z.
Proof.
  intros Hwf. rewrite receiveChanges_frontier.
  case_bool_decide as Hp; [|lia].
  destruct Hp as [<- Happ]. pose proof (applied_beyond_frontier b s Hwf Happ).
  lia.
Qed.

Lemma receiveAll_app (bs1 bs2 : list Batch) (s : Session) :
  receiveAll (bs1 ++ bs2) s = receiveAll bs2 (receiveAll bs1 s).
Proof. revert s. induction bs1 as [|b bs1 IH]; intros s; simpl; auto. Qed.

Lemma receiveAll_monotone (bs : list Batch) (s : Session) (p : SiteId) :
  Forall wf_batch bs →
  (frontierOf p (inboundStream s) ≤
     frontierOf p (inboundStream (receiveAll bs s)))%Z.
Proof.
  intros Hwf. revert s. induction Hwf as [|b bs Hb _ IH]; intros s; simpl.
  - lia.
  - etrans; [apply (receiveChanges_monotone b s p Hb)|apply IH].
Qed.

Lemma receiveAll_lastApplied (bs : list Batch) (s : Session) (p : SiteId) :
  frontierOf p (inboundStream (receiveAll bs s)) =
    lastApplied p (frontierOf p (inboundStream s)) (outcomes bs s).
Proof.
  revert s. induction bs as [|b bs IH]; intros s; simpl; [done|].
  rewrite IH, receiveChanges_frontier. by case_bool_decide.
Qed.

(** C7: after any sequence of [receiveChanges] calls the frontier recorded
    for a peer is the final version of the last batch of that peer that
    was applied (the frontier the sequence started from, if none was), and
    along the sequence the frontier of the peer never decreases. *)
Theorem frontier_is_last_applied_and_monotone (s : Session)
    (bs : list Batch) (p : SiteId) :
  Forall wf_batch bs →
  frontierOf p (inboundStream (receiveAll bs s)) =
    lastApplied p (frontierOf p (inboundStream s)) (outcomes bs s) ∧
  ∀ bs1 bs2, bs = bs1 ++ bs2 →
    (frontierOf p (inboundStream (receiveAll bs1 s)) ≤
       frontierOf p (inboundStream (receiveAll bs s)))%Z.
Proof.
  intros Hwf. split; [apply receiveAll_lastApplied|].
  intros bs1 bs2 ->. rewrite receiveAll_app.
  apply receiveAll_monotone. by apply Forall_app in Hwf as [_ ?].
Qed.

(** C8: a batch that starts beyond the recorded frontier plus one is not
    applied: the database handle and the recorded frontiers stay as they
    are, and the only effect is a request to the peer to resend from the
    recorded frontier. *)
Theorem gap_batch_requests_resend (s : Session) (b : Batch) :
  (frontierOf (peer b) (inboundStream s) + 1 < startVersion b)%Z →
  let f := frontierOf (peer b) (inboundStream s) in
  let r := receiveChanges b s in
  r.2 = Some GapRequested ∧
  db r.1 = db s ∧
  inboundStream r.1 = inboundStream s ∧
  sent (transport r.1) = sent (transport s) ++ [MsgRequestResend (peer b) f] ∧
  closeCalls (transport r.1) = closeCalls (transport s) ∧
  outboundStream r.1 = outboundStream s ∧
  calls r.1 = calls s.
Proof.
  intros Hgap f r. subst r f. rewrite receiveChanges_unfold. cbv zeta.
  rewrite bool_decide_eq_false_2 by lia.
  rewrite bool_decide_eq_true_2 by lia.
  done.
Qed.

(** An instance: from frontier 4, the batch 5..6 is applied, the batch
    at 9 is a gap, and of the batch 6..8 the versions 7 and 8 are new. *)
Lemma frontier_is_last_applied_and_monotone_witness :
  Forall wf_batch [b5_6; b9; b6_8] ∧
  frontierOf "b2" (inboundStream (receiveAll [b5_6; b9; b6_8] s1)) = 8%Z ∧
  (frontierOf "b2" (inboundStream (receiveAll [b5_6] s1)) ≤
     frontierOf "b2" (inboundStream (receiveAll [b5_6; b9; b6_8] s1)))%Z.
Proof.
  assert (Forall wf_batch [b5_6; b9; b6_8]) as Hwf.
  { repeat constructor; simpl; lia. }
  destruct (frontier_is_last_applied_and_monotone s1 [b5_6; b9; b6_8] "b2" Hwf)
    as [Hlast Hmono].
  split; [exact Hwf|]. split.
  - rewrite Hlast. reflexivity.
  - apply (Hmono [b5_6] [b9; b6_8]). reflexivity.
Defined.

(** An instance: at frontier 4 a batch that starts at 9. *)
Lemma gap_batch_requests_resend_witness :
  (receiveChanges b9 s1).2 = Some GapRequested ∧
  db (receiveChanges b9 s1).1 = db s1 ∧
  inboundStream (receiveChanges b9 s1).1 = inboundStream s1.
Proof.
  assert (frontierOf (peer b9) (inboundStream s1) + 1 < startVersion b9)%Z
    as Hgap by (vm_compute; reflexivity).
  destruct (gap_batch_requests_resend s1 b9 Hgap) as (H1 & H2 & H3 & _).
  auto.
Defined.

(** * Properties of the exclusive start *)

Section ExclusiveFacts.
Context {T : Type} (config : Config T).

Implicit Types (w : World T) (i : Invocation T) (l : @Label T) (c : nat).

Lemma lookup_set_invocation c c' (f : Invocation T → Invocation T) w :
  invocations (set_invocation c f w) !! c' =
    if decide (c = c') then f <$> invocations w !! c'
    else invocations w !! c'.
Proof.
  unfold set_invocation. simpl. rewrite list_lookup_alter.
  by case_decide; subst.
Qed.

Lemma length_set_invocation c (f : Invocation T → Invocation T) w :
  length (invocations (set_invocation c f w)) = length (invocations w).
Proof. apply length_alter. Qed.

Ltac open_step H :=
  repeat match type of H with
  | (?o ≫= _) = Some _ =>
      let E := fresh "E" in
      destruct o eqn:E; simpl in H; [|discriminate H]
  | (if bool_decide ?P then _ else _) = Some _ =>
      let D := fresh "D" in
      destruct (bool_decide_reflect P) as [D|D]; [|discriminate H]
  | (if bool_decide ?P && ?b then _ else _) = Some _ =>
      let D := fresh "D" in let B := fresh "B" in
      destruct (bool_decide_reflect P) as [D|D]; simpl in H;
        [destruct b eqn:B; [|discriminate H]|discriminate H]
  | None = Some _ => discriminate H
  end.

(** Every enabled step acts on an existing call as [after] says. *)
Lemma step_after l w w' c i :
  step config l w = Some w' →
  invocations w !! c = Some i →
  invocations w' !! c = Some (after config l w c i).
Proof.
  intros Hstep Hi. destruct l as [cx name o|c0|c0|c0|c0|c0]; simpl in *.
  - injection Hstep as <-. simpl.
    rewrite lookup_app_l; [done|]. by eapply lookup_lt_Some.
  - unfold lockCallback in Hstep. open_step Hstep.
    destruct (stopRequested i0) eqn:Hsr;
      injection Hstep as <-; rewrite lookup_set_invocation; simpl;
      case_decide; subst; rewrite Hi; simpl; [|done| |done];
      assert (i0 = i) as -> by congruence; by rewrite Hsr.
  - unfold createSyncedDB_fulfilled in Hstep. open_step Hstep.
    injection Hstep as <-. rewrite lookup_set_invocation.
    case_decide; subst; rewrite Hi; simpl; [|done].
    assert (i0 = i) as -> by congruence. by rewrite E0.
  - unfold startSync_then in Hstep. open_step Hstep.
    destruct (cb i0 c0) as [go i'] eqn:Hcb.
    injection Hstep as <-. rewrite lookup_set_invocation.
    case_decide; subst; rewrite Hi; simpl; [|done].
    assert (i0 = i) as -> by congruence.
    unfold delivered. by rewrite E0, Hcb.
  - unfold stop in Hstep. open_step Hstep.
    unfold stopped_by. simpl in Hstep.
    destruct (locks w !! (ctx i0, dbname i0)) as [r|] eqn:Hr;
      destruct (dbVar i0) as [r'|] eqn:Hv; simpl in Hstep;
      injection Hstep as <-;
      rewrite ?lookup_set_invocation;
      repeat case_decide; subst; rewrite ?Hi; simpl; try done.
  - unfold releaseLock in Hstep. open_step Hstep.
    by injection Hstep as <-.
Qed.

Lemma step_frame l w w' :
  step config l w = Some w' →
  locks w' =
    match l with
    | Create cx name _ => <[(cx, name) := length (invocations w)]> (locks w)
    | _ => locks w
    end ∧
  pending w' =
    match l with
    | Create _ _ _ => pending w ++ [length (invocations w)]
    | Grant c0 => filter (λ r, r ≠ c0) (pending w)
    | _ => pending w
    end ∧
  length (invocations w') =
    match l with
    | Create _ _ _ => S (length (invocations w))
    | _ => length (invocations w)
    end.
Proof.
  intros Hstep. destruct l as [cx name o|c0|c0|c0|c0|c0]; simpl in *.
  - injection Hstep as <-. simpl. rewrite length_app. simpl.
    repeat split. lia.
  - unfold lockCallback in Hstep. open_step Hstep.
    destruct (stopRequested i); injection Hstep as <-;
      rewrite length_set_invocation; done.
  - unfold createSyncedDB_fulfilled in Hstep. open_step Hstep.
    injection Hstep as <-. by rewrite length_set_invocation.
  - unfold startSync_then in Hstep. open_step Hstep.
    destruct (cb i c0). injection Hstep as <-.
    by rewrite length_set_invocation.
  - unfold stop in Hstep. open_step Hstep. simpl in Hstep.
    destruct (locks w !! (ctx i, dbname i));
      destruct (dbVar i); simpl in Hstep; injection Hstep as <-;
      rewrite ?length_set_invocation; done.
  - unfold releaseLock in Hstep. open_step Hstep.
    by injection Hstep as <-.
Qed.

Lemma step_enabled l w w' :
  step config l w = Some w' →
  match l with
  | Create _ _ _ => True
  | Grant c0 =>
      c0 ∈ pending w ∧
      ∃ i, invocations w !! c0 = Some i ∧ held w !! dbname i = None
  | Fulfil c0 => ∃ i, invocations w !! c0 = Some i ∧ phase i = Creating
  | Then c0 => ∃ i, invocations w !! c0 = Some i ∧ phase i = Constructed
  | Stop c0 => ∃ i, invocations w !! c0 = Some i
  | Release c0 =>
      ∃ i, invocations w !! c0 = Some i ∧ held w !! dbname i = Some c0 ∧
           holdResolved i = true
  end.
Proof.
  intros Hstep. destruct l as [cx name o|c0|c0|c0|c0|c0]; simpl in *.
  - done.
  - unfold lockCallback in Hstep. open_step Hstep.
    destruct D as [Hp Hh]. eauto.
  - unfold createSyncedDB_fulfilled in Hstep. open_step Hstep. eauto.
  - unfold startSync_then in Hstep. open_step Hstep. eauto.
  - unfold stop in Hstep. open_step Hstep. eauto.
  - unfold releaseLock in Hstep. open_step Hstep. eauto.
Qed.

(** A call of the new world either existed, and then changed as [after]
    says, or is the call that the step created. *)
Lemma step_lookup l w w' c i' :
  step config l w = Some w' →
  invocations w' !! c = Some i' →
  (∃ i, invocations w !! c = Some i ∧ i' = after config l w c i) ∨
  (∃ cx name o, l = Create cx name o ∧ c = length (invocations w) ∧
                i' = fresh cx name o).
Proof.
  intros Hstep Hi'. destruct (invocations w !! c) as [i|] eqn:Hi.
  - left. exists i. split; [done|].
    rewrite (step_after _ _ _ _ _ Hstep Hi) in Hi'. congruence.
  - right. apply lookup_ge_None in Hi.
    pose proof (lookup_lt_Some _ _ _ Hi') as Hlt.
    destruct (step_frame _ _ _ Hstep) as (_ & _ & Hlen).
    destruct l as [cx name o| | | | |]; try lia.
    exists cx, name, o. simpl in Hstep. injection Hstep as <-.
    simpl in *. assert (c = length (invocations w)) as -> by lia.
    split; [done|]. split; [done|].
    rewrite lookup_app_r in Hi' by lia.
    rewrite Nat.sub_diag in Hi'. simpl in Hi'. by injection Hi' as <-.
Qed.

(** *** What a step leaves alone in a call *)

Lemma cb_dbVar i c : dbVar (cb i c).2 = dbVar i.
Proof. unfold cb. by destruct (stopRequested i). Qed.

Lemma cb_frame i c :
  ctx (cb i c).2 = ctx i ∧ dbname (cb i c).2 = dbname i ∧
  transportOptions (cb i c).2 = transportOptions i ∧
  stopRequested (cb i c).2 = stopRequested i ∧
  holdResolved (cb i c).2 = holdResolved i ∧
  (cb i c).1 = negb (stopRequested i).
Proof.
  unfold cb. destruct (stopRequested i) eqn:Hsr; simpl; by rewrite ?Hsr.
Qed.

Lemma after_dbVar l w c i : dbVar (after config l w c i) = dbVar i.
Proof.
  destruct l as [cx name o|c0|c0|c0|c0|c0]; simpl; try done.
  - by case_decide.
  - case_decide; [|done].
    by destruct (createSyncedDB config (dbname i) (transportOptions i)).
  - case_decide; [|done]. unfold delivered.
    destruct (session i); [|done].
    pose proof (cb_dbVar i c) as Hcb. by destruct (cb i c).
  - destruct (invocations w !! c0) as [i0|]; [|done].
    unfold stopped_by.
    destruct (locks w !! (ctx i0, dbname i0)); destruct (dbVar i0);
      repeat case_decide; done.
Qed.

Lemma after_identity l w c i :
  ctx (after config l w c i) = ctx i ∧
  dbname (after config l w c i) = dbname i ∧
  transportOptions (after config l w c i) = transportOptions i.
Proof.
  destruct l as [cx name o|c0|c0|c0|c0|c0]; simpl; try done.
  - by case_decide.
  - case_decide; [|done].
    by destruct (createSyncedDB config (dbname i) (transportOptions i)).
  - case_decide; [|done]. unfold delivered.
    destruct (session i); [|done].
    pose proof (cb_frame i c) as Hcb. destruct (cb i c). simpl in *.
    tauto.
  - destruct (invocations w !! c0) as [i0|]; [|done].
    unfold stopped_by.
    destruct (locks w !! (ctx i0, dbname i0)); destruct (dbVar i0);
      repeat case_decide; done.
Qed.

Lemma after_stopRequested l w c i :
  stopRequested i = true → stopRequested (after config l w c i) = true.
Proof.
  intros Hsr.
  destruct l as [cx name o|c0|c0|c0|c0|c0]; simpl; try done.
  - by case_decide.
  - case_decide; [|done].
    by destruct (createSyncedDB config (dbname i) (transportOptions i)).
  - case_decide; [|done]. unfold delivered.
    destruct (session i); [|done].
    pose proof (cb_frame i c) as Hcb. destruct (cb i c). simpl in *.
    destruct Hcb as (_ & _ & _ & -> & _). done.
  - destruct (invocations w !! c0) as [i0|]; [|done].
    unfold stopped_by.
    destruct (locks w !! (ctx i0, dbname i0)); destruct (dbVar i0);
      repeat case_decide; done.
Qed.

(** Only a [stop] that finds the call's releaser in [locks] resolves the
    call's [hold]. *)
Lemma after_holdResolved l w c i :
  holdResolved (after config l w c i) = holdResolved i ∨
  ∃ c0 i0, l = Stop c0 ∧ invocations w !! c0 = Some i0 ∧
           locks w !! (ctx i0, dbname i0) = Some c.
Proof.
  destruct l as [cx name o|c0|c0|c0|c0|c0]; simpl; try by left.
  - left. by case_decide.
  - left. case_decide; [|done].
    by destruct (createSyncedDB config (dbname i) (transportOptions i)).
  - left. case_decide; [|done]. unfold delivered.
    destruct (session i); [|done].
    pose proof (cb_frame i c) as Hcb. destruct (cb i c). simpl in *.
    tauto.
  - destruct (invocations w !! c0) as [i0|] eqn:Hi0; [|by left].
    unfold stopped_by.
    destruct (locks w !! (ctx i0, dbname i0)) as [r|] eqn:Hr.
    + destruct (decide (r = c)) as [->|Hne].
      * right. eauto.
      * left. destruct (dbVar i0); repeat case_decide; done.
    + left. destruct (dbVar i0); repeat case_decide; done.
Qed.

Lemma stopped_by_state w c0 i0 c i :
  dbVar i0 = None →
  session (stopped_by w c0 i0 c i) = session i ∧
  phase (stopped_by w c0 i0 c i) = phase i.
Proof.
  intros Hv. unfold stopped_by. rewrite Hv.
  destruct (locks w !! (ctx i0, dbname i0)); repeat case_decide; done.
Qed.

Lemma start_frame (s : Session) :
  startEntered (SyncedDB.start s).1 = S (startEntered s) ∧
  stopEntered (SyncedDB.start s).1 = stopEntered s ∧
  outboundStream (SyncedDB.start s).1 = outboundStream s ∧
  closeCalls (transport (SyncedDB.start s).1) = closeCalls (transport s).
Proof.
  run_method. destruct (getLastSeens (db s)); simpl; [|done].
  destruct (getSchemaNameAndVersion (db s)) as [[??]|]; simpl; done.
Qed.

Lemma Good_init : Good config init.
Proof.
  split; simpl; try (intros; by rewrite ?lookup_nil in * );
    try (intros; by rewrite ?lookup_empty in * ).
  intros c Hc. by apply elem_of_nil in Hc.
Qed.

Lemma step_Good l w w' :
  Good config w → step config l w = Some w' → Good config w'.
Proof.
  intros Hg Hstep.
  pose proof (step_enabled _ _ _ Hstep) as Hen.
  destruct (step_frame _ _ _ Hstep) as (Hlocks & Hpend & Hlen).
  split.
  - (* the db variable *)
    intros c i' Hi'.
    destruct (step_lookup _ _ _ _ _ Hstep Hi')
      as [(i & Hi & ->)|(cx & name & o & -> & -> & ->)]; [|done].
    rewrite after_dbVar. by eapply good_dbVar.
  - (* waiting requests *)
    intros c Hc. rewrite Hpend in Hc.
    pose proof (λ c i, step_after l w w' c i Hstep) as Haft.
    destruct l as [cx name o|c0|c0|c0|c0|c0]; simpl in *.
    + injection Hstep as <-. simpl.
      apply elem_of_app in Hc as [Hc|Hc].
      * destruct (good_waiting _ _ Hg c Hc) as (i & Hi & Hph).
        exists i. split; [|done]. rewrite lookup_app_l; [done|].
        by eapply lookup_lt_Some.
      * apply list_elem_of_singleton in Hc as ->.
        eexists. split; [apply list_lookup_middle; done|done].
    + apply list_elem_of_filter in Hc as [Hne Hc].
      destruct (good_waiting _ _ Hg c Hc) as (i & Hi & Hph).
      exists i. split; [|done].
      rewrite (Haft _ _ Hi). simpl.
      by rewrite decide_False by done.
    + destruct (good_waiting _ _ Hg c Hc) as (i & Hi & Hph).
      destruct Hen as (i0 & Hi0 & Hph0).
      exists i. split; [|done].
      rewrite (Haft _ _ Hi). simpl.
      rewrite decide_False; [done|]. intros ->. congruence.
    + destruct (good_waiting _ _ Hg c Hc) as (i & Hi & Hph).
      destruct Hen as (i0 & Hi0 & Hph0).
      exists i. split; [|done].
      rewrite (Haft _ _ Hi). simpl.
      rewrite decide_False; [done|]. intros ->. congruence.
    + destruct (good_waiting _ _ Hg c Hc) as (i & Hi & Hph).
      destruct Hen as (i0 & Hi0).
      eexists. split; [apply (Haft _ _ Hi)|].
      simpl. rewrite Hi0.
      destruct (stopped_by_state w c0 i0 c i) as [_ ->]; [|done].
      by eapply good_dbVar.
    + destruct (good_waiting _ _ Hg c Hc) as (i & Hi & Hph).
      exists i. split; [|done].
      by rewrite (Haft _ _ Hi).
  - (* started sessions were delivered *)
    intros c i' Hi' Hst.
    destruct (step_lookup _ _ _ _ _ Hstep Hi')
      as [(i & Hi & ->)|(cx & name & o & -> & -> & ->)]; [|done].
    pose proof (good_started _ _ Hg c i Hi) as IH.
    destruct l as [cx name o|c0|c0|c0|c0|c0]; simpl in *; auto.
    + case_decide as Hc; [subst c0|auto].
      destruct Hen as (Hp & _).
      destruct (good_waiting _ _ Hg c Hp) as (i1 & Hi1 & Hph).
      assert (i1 = i) as -> by congruence.
      unfold started in *. simpl in Hst. specialize (IH Hst). congruence.
    + case_decide as Hc; [subst c0|auto].
      destruct (createSyncedDB config (dbname i) (transportOptions i))
        as [s|] eqn:Hs; [|auto].
      unfold createSyncedDB in Hs.
      destruct (dbProvider config (dbname i)); [|done].
      simpl in Hs. injection Hs as <-. done.
    + case_decide as Hc; [subst c0|auto].
      unfold delivered in *. destruct (session i) eqn:Hs.
      * by destruct (cb i c).
      * unfold started in IH. rewrite Hs in IH.
        unfold started in Hst. rewrite Hs in Hst. done.
    + destruct Hen as (i0 & Hi0). rewrite Hi0 in *.
      destruct (stopped_by_state w c0 i0 c i) as [Hs Hp];
        [by eapply good_dbVar|].
      rewrite Hp. apply IH. unfold started in *. by rewrite <- Hs.
  - (* sessions are untouched *)
    intros c i' s Hi' Hs.
    destruct (step_lookup _ _ _ _ _ Hstep Hi')
      as [(i & Hi & ->)|(cx & name & o & -> & -> & ->)]; [|done].
    pose proof (good_session _ _ Hg c i) as IH.
    destruct (after_identity l w c i) as (_ & Hn & Ho).
    unfold untouched in *. rewrite Hn, Ho. clear Hn Ho.
    destruct l as [cx name o|c0|c0|c0|c0|c0]; simpl in *; auto.
    + case_decide; auto.
    + case_decide as Hc; [subst c0|auto].
      destruct (createSyncedDB config (dbname i) (transportOptions i))
        as [s'|] eqn:Hs'; [|auto].
      unfold createSyncedDB in Hs'.
      destruct (dbProvider config (dbname i)); [|done].
      simpl in *. injection Hs' as <-. by injection Hs as <-.
    + case_decide as Hc; [subst c0|auto].
      unfold delivered in *.
      destruct (session i) as [s0|] eqn:Hs0; [|congruence].
      specialize (IH s0 Hi eq_refl).
      destruct (cb i c) as [[] i1]; simpl in Hs; injection Hs as <-;
        [|done].
      destruct (start_frame s0) as (_ & -> & -> & ->). done.
    + destruct Hen as (i0 & Hi0). rewrite Hi0 in *.
      destruct (stopped_by_state w c0 i0 c i) as [Hs' _];
        [by eapply good_dbVar|].
      rewrite Hs' in Hs. auto.
  - (* releasers belong to calls *)
    intros k r Hr. rewrite Hlocks in Hr. rewrite Hlen.
    destruct l as [cx name o|c0|c0|c0|c0|c0];
      try (by eapply good_releaser).
    rewrite lookup_insert in Hr. case_decide.
    + injection Hr as <-. lia.
    + pose proof (good_releaser _ _ Hg k r Hr). lia.
  - (* every call has an entry *)
    intros c i' Hi'. rewrite Hlocks.
    destruct (step_lookup _ _ _ _ _ Hstep Hi')
      as [(i & Hi & ->)|(cx & name & o & -> & -> & ->)].
    + destruct (after_identity l w c i) as (-> & -> & _).
      pose proof (good_entry _ _ Hg c i Hi) as He.
      destruct l as [cx name o|c0|c0|c0|c0|c0]; try done.
      rewrite lookup_insert. by case_decide.
    + simpl. by rewrite lookup_insert_eq.
Qed.

Lemma run_Good ls w w' :
  Good config w → run config ls w = Some w' → Good config w'.
Proof.
  revert w. induction ls as [|l ls IH]; intros w Hg Hrun; simpl in Hrun.
  - by injection Hrun as <-.
  - destruct (step config l w) as [w1|] eqn:Hstep; [|done].
    simpl in Hrun. eapply IH; [|done]. by eapply step_Good.
Qed.

Lemma reachable_Good ls w :
  run config ls init = Some w → Good config w.
Proof. apply run_Good, Good_init. Qed.
(** *** The controller's stop and the session *)

Lemma stop_unfold_Good w c i :
  Good config w →
  invocations w !! c = Some i →
  ∃ r, locks w !! (ctx i, dbname i) = Some r ∧
       stop c w =
         Some (set_invocation r resolve_hold
                 (set_invocation c (set_stopRequested true) w)).
Proof.
  intros Hg Hi. destruct (good_entry _ _ Hg c i Hi) as [r Hr].
  exists r. split; [done|]. unfold stop. rewrite Hi. simpl.
  rewrite Hr. by rewrite (good_dbVar _ _ Hg c i Hi).
Qed.

(** C4: in every world an execution reaches, the [db] variable of every
    call is still [null], so no session has had its [stop] entered, its
    outbound stream stopped or its transport closed; and the controller's
    [stop] does no more than set [stopRequested] of its call and resolve
    the [hold] whose releaser is in [locks], leaving every session as it
    was. *)
Theorem controller_stop_leaves_session_running ls w c i :
  run config ls init = Some w →
  invocations w !! c = Some i →
  dbVar i = None ∧
  (∀ s, session i = Some s →
     stopEntered s = 0 ∧ stopCalls (outboundStream s) = 0 ∧
     closeCalls (transport s) =
       closeCalls (transportProvider config (dbname i) (transportOptions i))) ∧
  (∃ r, locks w !! (ctx i, dbname i) = Some r ∧
        stop c w =
          Some (set_invocation r resolve_hold
                  (set_invocation c (set_stopRequested true) w))) ∧
  (∀ w' c', stop c w = Some w' →
     session <$> invocations w' !! c' = session <$> invocations w !! c').
Proof.
  intros Hrun Hi. pose proof (reachable_Good _ _ Hrun) as Hg.
  split; [by eapply good_dbVar|].
  split; [intros s Hs; by eapply (good_session _ _ Hg c i s)|].
  destruct (stop_unfold_Good w c i Hg Hi) as (r & Hr & Hstop).
  split; [eauto|].
  intros w' c' Hw'. rewrite Hstop in Hw'. injection Hw' as <-.
  rewrite !lookup_set_invocation.
  repeat case_decide; subst; destruct (invocations w !! c'); done.
Qed.

(** *** Stopping before the session is delivered *)

Lemma step_stopped_unstarted l w w' c :
  Good config w →
  step config l w = Some w' →
  stopped_unstarted c w → stopped_unstarted c w'.
Proof.
  intros Hg Hstep (i & Hi & Hsr & Hst).
  exists (after config l w c i). split; [by eapply step_after|].
  split; [by apply after_stopRequested|].
  pose proof (step_enabled _ _ _ Hstep) as Hen.
  destruct l as [cx name o|c0|c0|c0|c0|c0]; simpl in *; try done.
  - by case_decide.
  - case_decide; [|done].
    destruct (createSyncedDB config (dbname i) (transportOptions i))
      as [s|] eqn:Hs; [|done].
    unfold createSyncedDB in Hs.
    destruct (dbProvider config (dbname i)); [|done].
    simpl in Hs. by injection Hs as <-.
  - case_decide; [|done]. unfold delivered.
    destruct (session i) as [s|] eqn:Hs; [|done].
    unfold cb. rewrite Hsr. unfold started in *. simpl. by rewrite Hs in Hst.
  - destruct Hen as (i0 & Hi0). rewrite Hi0.
    destruct (stopped_by_state w c0 i0 c i) as [Hs _];
      [by eapply good_dbVar|].
    unfold started in *. by rewrite Hs.
Qed.

Lemma run_stopped_unstarted ls w w' c :
  Good config w →
  run config ls w = Some w' →
  stopped_unstarted c w → stopped_unstarted c w'.
Proof.
  revert w. induction ls as [|l ls IH]; intros w Hg Hrun Hsu; simpl in Hrun.
  - by injection Hrun as <-.
  - destruct (step config l w) as [w1|] eqn:Hstep; [|done].
    simpl in Hrun. eapply IH; [|done|].
    + by eapply step_Good.
    + by eapply step_stopped_unstarted.
Qed.

(** The lock callback of a stopped call returns at once: the lock is not
    kept and nothing is started. *)
Lemma lockCallback_stopped w w' c i :
  invocations w !! c = Some i →
  stopRequested i = true →
  lockCallback c w = Some w' →
  held w' = held w ∧ invocations w' !! c = Some (set_phase Skipped i).
Proof.
  intros Hi Hsr Hcb. unfold lockCallback in Hcb. rewrite Hi in Hcb.
  simpl in Hcb. case_bool_decide; [|done]. rewrite Hsr in Hcb.
  injection Hcb as <-. split; [done|].
  rewrite lookup_set_invocation. rewrite decide_True by done.
  simpl. by rewrite Hi.
Qed.

(** C3, amended: when the controller's [stop] is called before the
    session has been delivered to the callback, the lock request is left
    in the lock manager's queue, but [SyncedDB.start] is not entered for
    that call in any continuation of the execution; and when the lock
    manager later runs the call's lock callback, the callback returns at
    once, so the lock is not kept and no session is created. *)
Theorem stop_before_delivery_never_starts ls1 w1 c i w1' ls2 w2 :
  run config ls1 init = Some w1 →
  invocations w1 !! c = Some i →
  phase i ≠ Delivered →
  stop c w1 = Some w1' →
  run config ls2 w1' = Some w2 →
  pending w1' = pending w1 ∧
  (∃ i2, invocations w2 !! c = Some i2 ∧ stopRequested i2 = true ∧
         started i2 = false ∧
         ∀ w3, lockCallback c w2 = Some w3 →
           held w3 = held w2 ∧
           invocations w3 !! c = Some (set_phase Skipped i2)).
Proof.
  intros Hrun1 Hi Hph Hstop Hrun2.
  pose proof (reachable_Good _ _ Hrun1) as Hg.
  assert (step config (Stop c) w1 = Some w1') as Hstep by done.
  destruct (step_frame _ _ _ Hstep) as (_ & Hpend & _).
  split; [done|].
  assert (stopped_unstarted c w1') as Hsu.
  { exists (after config (Stop c) w1 c i).
    split; [by eapply step_after|]. simpl. rewrite Hi.
    destruct (stopped_by_state w1 c i c i) as [Hs _];
      [by eapply good_dbVar|].
    split.
    - unfold stopped_by. rewrite decide_True by done.
      destruct (locks w1 !! (ctx i, dbname i)); destruct (dbVar i);
        repeat case_decide; done.
    - unfold started in *. rewrite Hs.
      destruct (session i) as [s|] eqn:Hsess; [|done].
      apply not_true_is_false. intros Hst. apply Hph.
      eapply (good_started _ _ Hg c i Hi). unfold started. by rewrite Hsess. }
  pose proof (step_Good _ _ _ Hg Hstep) as Hg1.
  destruct (run_stopped_unstarted _ _ _ c Hg1 Hrun2 Hsu)
    as (i2 & Hi2 & Hsr2 & Hst2).
  exists i2. repeat split; try done;
    by destruct (lockCallback_stopped w2 w3 c i2).
Qed.
(** *** The locks map *)

Lemma run_app ls1 ls2 w :
  run config (ls1 ++ ls2) w = run config ls1 w ≫= run config ls2.
Proof.
  revert w. induction ls1 as [|l ls1 IH]; intros w; simpl; [done|].
  destruct (step config l w); simpl; [apply IH|done].
Qed.

(** An entry of [locks] is there exactly when it was there before or a
    call of [createSyncedDB_Exclusive] for its context and name has run
    since: no step removes an entry. *)
Lemma run_locks_entry ls w w' cx name :
  run config ls w = Some w' →
  is_Some (locks w' !! (cx, name)) ↔
    is_Some (locks w !! (cx, name)) ∨ ∃ o, Create cx name o ∈ ls.
Proof.
  revert w. induction ls as [|l ls IH]; intros w Hrun; simpl in Hrun.
  - injection Hrun as <-. split; [by left|].
    intros [?|[o Ho]]; [done|]. by apply elem_of_nil in Ho.
  - destruct (step config l w) as [w1|] eqn:Hstep; [|done].
    simpl in Hrun. rewrite (IH _ Hrun).
    destruct (step_frame _ _ _ Hstep) as (Hlocks & _ & _).
    rewrite Hlocks. split.
    + intros [Hs|[o Ho]].
      * destruct l as [cx' name' o'| | | | |]; try by left.
        rewrite lookup_insert in Hs. case_decide as Hk; [|by left].
        injection Hk as -> ->. right. exists o'. apply elem_of_cons. by left.
      * right. exists o. apply elem_of_cons. by right.
    + intros [Hs|[o Ho]].
      * left. destruct l as [cx' name' o'| | | | |]; try done.
        rewrite lookup_insert. by case_decide.
      * apply elem_of_cons in Ho as [<-|Ho].
        -- left. by rewrite lookup_insert_eq.
        -- right. by exists o.
Qed.

(** C9, amended: a context's [locks] map has an entry for a database
    name exactly when that context has called [createSyncedDB_Exclusive]
    for the name; the first call creates the entry and nothing removes
    it. *)
Theorem locks_entry_created_never_removed ls w cx name :
  run config ls init = Some w →
  is_Some (locks w !! (cx, name)) ↔ ∃ o, Create cx name o ∈ ls.
Proof.
  intros Hrun. rewrite (run_locks_entry _ _ _ cx name Hrun). simpl.
  rewrite lookup_empty. split; [|by right].
  intros [[? ?]|?]; done.
Qed.

(** *** Two calls for one name in one context *)

Lemma step_releaser_only_under (Q : nat * string → Prop) l w w' c :
  step config l w = Some w' →
  releaser_only_under Q c w → releaser_only_under Q c w'.
Proof.
  intros Hstep [Hlt HQ].
  destruct (step_frame _ _ _ Hstep) as (Hlocks & _ & Hlen).
  split.
  - rewrite Hlen. destruct l; lia.
  - intros k r Hr ->. rewrite Hlocks in Hr.
    destruct l as [cx name o| | | | |]; try by eapply HQ.
    rewrite lookup_insert in Hr. case_decide; [|by eapply HQ].
    injection Hr as <-. lia.
Qed.

Lemma run_releaser_only_under (Q : nat * string → Prop) ls w w' c :
  run config ls w = Some w' →
  releaser_only_under Q c w → releaser_only_under Q c w'.
Proof.
  revert w. induction ls as [|l ls IH]; intros w Hrun Hq; simpl in Hrun.
  - by injection Hrun as <-.
  - destruct (step config l w) as [w1|] eqn:Hstep; [|done].
    simpl in Hrun. eapply IH; [done|].
    by eapply step_releaser_only_under.
Qed.

(** While no [locks] map holds the releaser of call [c], the [hold] of
    [c] stays as it is. *)
Lemma step_hold_unreachable l w w' c :
  step config l w = Some w' →
  releaser_only_under (λ _, False) c w →
  holdResolved <$> invocations w' !! c = holdResolved <$> invocations w !! c.
Proof.
  intros Hstep [Hlt HQ].
  destruct (lookup_lt_is_Some_2 _ _ Hlt) as [i Hi].
  rewrite (step_after _ _ _ _ _ Hstep Hi), Hi. simpl. f_equal.
  destruct (after_holdResolved l w c i) as [->|(c0 & i0 & _ & _ & Hr)];
    [done|].
  by destruct (HQ _ _ Hr).
Qed.

Lemma run_hold_unreachable ls w w' c :
  run config ls w = Some w' →
  releaser_only_under (λ _, False) c w →
  holdResolved <$> invocations w' !! c = holdResolved <$> invocations w !! c.
Proof.
  revert w. induction ls as [|l ls IH]; intros w Hrun Hq; simpl in Hrun.
  - by injection Hrun as <-.
  - destruct (step config l w) as [w1|] eqn:Hstep; [|done].
    simpl in Hrun. rewrite (IH _ Hrun).
    + by eapply step_hold_unreachable.
    + by eapply step_releaser_only_under.
Qed.

(** The context and the name of a call never change. *)
Lemma run_identity ls w w' c i :
  run config ls w = Some w' →
  invocations w !! c = Some i →
  ∃ i', invocations w' !! c = Some i' ∧ ctx i' = ctx i ∧ dbname i' = dbname i.
Proof.
  revert w i. induction ls as [|l ls IH]; intros w i Hrun Hi; simpl in Hrun.
  - injection Hrun as <-. eauto.
  - destruct (step config l w) as [w1|] eqn:Hstep; [|done].
    simpl in Hrun.
    destruct (IH _ _ Hrun (step_after _ _ _ _ _ Hstep Hi))
      as (i' & Hi' & Hc & Hn).
    destruct (after_identity l w c i) as (Hc' & Hn' & _).
    exists i'. split; [done|]. split; congruence.
Qed.

(** A [locks] entry is only ever written by [createSyncedDB_Exclusive]
    for its own context and name. *)
Lemma run_locks_key ls w w' cx name :
  run config ls w = Some w' →
  (∀ o, Create cx name o ∉ ls) →
  locks w' !! (cx, name) = locks w !! (cx, name).
Proof.
  revert w. induction ls as [|l ls IH]; intros w Hrun Hno; simpl in Hrun.
  - by injection Hrun as <-.
  - destruct (step config l w) as [w1|] eqn:Hstep; [|done].
    simpl in Hrun. rewrite (IH _ Hrun).
    + destruct (step_frame _ _ _ Hstep) as (-> & _ & _).
      destruct l as [cx' name' o'| | | | |]; try done.
      rewrite lookup_insert_ne; [done|].
      intros [= -> ->]. apply (Hno o'), elem_of_cons. by left.
    + intros o Ho. apply (Hno o), elem_of_cons. by right.
Qed.

(** C10: after a second call of [createSyncedDB_Exclusive] for the same
    name in the same context, the single [locks] entry of that name holds
    the releaser of the second call; from then on, and as long as no
    further call for the name overwrites the entry again, [stop] on either
    controller resolves the second call's [hold]; and no step of any
    execution resolves the first call's [hold] any more. *)
Theorem second_call_overwrites_releaser ls0 w0 cx name o1 o2 mid w1' :
  run config ls0 init = Some w0 →
  run config mid (createSyncedDB_Exclusive cx name o1 w0) = Some w1' →
  let c1 := length (invocations w0) in
  let c2 := length (invocations w1') in
  let w2 := createSyncedDB_Exclusive cx name o2 w1' in
  c1 ≠ c2 ∧
  locks w2 !! (cx, name) = Some c2 ∧
  (∀ ls w3 c w4,
     run config ls w2 = Some w3 →
     (∀ o, Create cx name o ∉ ls) →
     c = c1 ∨ c = c2 →
     stop c w3 = Some w4 →
     ∃ i2, invocations w4 !! c2 = Some i2 ∧ holdResolved i2 = true) ∧
  (∀ ls w3, run config ls w2 = Some w3 →
     holdResolved <$> invocations w3 !! c1 =
       holdResolved <$> invocations w2 !! c1).
Proof.
  intros Hrun0 Hmid c1 c2 w2.
  pose proof (reachable_Good _ _ Hrun0) as Hg0.
  set (w1 := createSyncedDB_Exclusive cx name o1 w0) in *.
  (* after the first call its releaser sits under (cx, name) only *)
  assert (releaser_only_under (λ k, k = (cx, name)) c1 w1) as Hq1.
  { split.
    - subst w1 c1. simpl. rewrite length_app. simpl. lia.
    - intros k r Hr ->. subst w1. simpl in Hr.
      rewrite lookup_insert in Hr. case_decide; [done|].
      pose proof (good_releaser _ _ Hg0 k _ Hr). subst c1. lia. }
  pose proof (run_releaser_only_under _ _ _ _ _ Hmid Hq1) as [Hlt1 Hq1'].
  (* the second call overwrites that entry *)
  assert (releaser_only_under (λ _, False) c1 w2) as Hq2.
  { split.
    - subst w2. simpl. rewrite length_app. simpl. lia.
    - intros k r Hr ->. subst w2. simpl in Hr.
      rewrite lookup_insert in Hr. case_decide as Hk.
      + injection Hr as Hr. subst c2. lia.
      + apply Hk. symmetry. by eapply Hq1'. }
  assert (c1 ≠ c2) as Hne by (subst c2; lia).
  assert (locks w2 !! (cx, name) = Some c2) as Hl2
    by (subst w2; simpl; by rewrite lookup_insert_eq).
  split; [done|]. split; [done|]. split.
  - intros ls w3 c w4 Hrun Hno Hc Hstop.
    assert (step config (Stop c) w3 = Some w4) as Hstep by done.
    assert (invocations w2 !! c2 = Some (fresh cx name o2)) as Hi2
      by (subst w2 c2; simpl; by apply list_lookup_middle).
    assert (∃ i, invocations w2 !! c = Some i ∧
                 ctx i = cx ∧ dbname i = name) as (i & Hi & Hcx & Hn).
    { destruct Hc as [->| ->]; [|eauto].
      assert (invocations w1 !! c1 = Some (fresh cx name o1)) as Hi1
        by (subst w1 c1; simpl; by apply list_lookup_middle).
      destruct (run_identity _ _ _ _ _ Hmid Hi1) as (i' & Hi' & ? & ?).
      exists i'. split; [|done]. subst w2. simpl.
      rewrite lookup_app_l; [done|]. by eapply lookup_lt_Some. }
    clearbody w2.
    destruct (run_identity _ _ _ _ _ Hrun Hi) as (i3 & Hi3 & Hcx3 & Hn3).
    destruct (run_identity _ _ _ _ _ Hrun Hi2) as (j3 & Hj3 & _ & _).
    pose proof (run_locks_key _ _ _ cx name Hrun Hno) as Hl3.
    rewrite Hl2 in Hl3.
    eexists. split; [by eapply step_after|].
    simpl. rewrite Hi3. unfold stopped_by.
    rewrite Hcx3, Hn3, Hcx, Hn, Hl3.
    rewrite (decide_True (P := c2 = c2)) by done.
    destruct (dbVar i3); repeat case_decide; done.
  - intros ls w3 Hrun. by eapply run_hold_unreachable.
Qed.
End ExclusiveFacts.

(** *** Two contexts, one database name *)

(** C1, evaluated: context 0 and context 1 both ask for "db1"; context 0
    gets the lock and starts its session, then calls [stop] on its
    controller; the lock passes to context 1, which starts its session.
    At the end the sessions of both contexts are started and not
    stopped. *)
Theorem stop_hands_over_lock_but_session_runs_on :
  runningIn <$>
    run config0
      [Create 0 "db1" tt; Create 1 "db1" tt;
       Grant 0; Fulfil 0; Then 0;
       Stop 0; Release 0;
       Grant 1; Fulfil 1; Then 1] init
  = Some [(0, 0); (1, 1)].
Proof. vm_compute. reflexivity. Qed.

(** An instance: context 0 starts its session and stops its controller;
    the session is still running afterwards. *)
Lemma controller_stop_leaves_session_running_witness :
  run config0 schedule_stop init = Some world_stop ∧
  invocations world_stop !! 0 = Some invocation_stop ∧
  session invocation_stop = Some session_stop ∧
  stopRequested invocation_stop = true ∧
  SyncedDB.running session_stop = true ∧
  dbVar invocation_stop = None ∧
  stopEntered session_stop = 0 ∧
  stopCalls (outboundStream session_stop) = 0 ∧
  closeCalls (transport session_stop) = 0.
Proof.
  assert (run config0 schedule_stop init = Some world_stop) as Hrun
    by (vm_compute; reflexivity).
  assert (invocations world_stop !! 0 = Some invocation_stop) as Hi
    by (vm_compute; reflexivity).
  destruct (controller_stop_leaves_session_running config0
              schedule_stop world_stop 0 invocation_stop Hrun Hi)
    as (Hv & Hs & _).
  destruct (Hs session_stop eq_refl) as (H1 & H2 & H3).
  split; [exact Hrun|]. split; [exact Hi|].
  split; [reflexivity|]. split; [reflexivity|]. split; [reflexivity|].
  split; [exact Hv|]. split; [exact H1|]. split; [exact H2|].
  exact H3.
Defined.

(** C3, as stated, fails: context 1's request waits behind context 0's
    lock; after [stop] on context 1's controller the request is still in
    the lock manager's queue. *)
Lemma stop_leaves_request_queued : ¬ stop_withdraws_request config0.
Proof.
  intros H.
  apply (H schedule_wait world_wait 1 invocation_wait world_wait_stopped).
  - vm_compute. reflexivity.
  - vm_compute. reflexivity.
  - reflexivity.
  - vm_compute. reflexivity.
  - apply list_elem_of_In. vm_compute. by left.
Qed.

(** An instance: context 1 stops while it waits for the lock; when the
    lock reaches it, nothing is started and the lock is free again. *)
Lemma stop_before_delivery_never_starts_witness :
  run config0 schedule_wait init = Some world_wait ∧
  invocations world_wait !! 1 = Some invocation_wait ∧
  phase invocation_wait ≠ Delivered ∧
  stop 1 world_wait = Some world_wait_stopped ∧
  run config0 schedule_handover world_wait_stopped = Some world_handover ∧
  pending world_wait_stopped = pending world_wait ∧
  started (invocation_of 1 world_handover) = false ∧
  held world_handover !! "db1" = None.
Proof.
  assert (run config0 schedule_wait init = Some world_wait) as Hrun1
    by (vm_compute; reflexivity).
  assert (invocations world_wait !! 1 = Some invocation_wait) as Hi
    by (vm_compute; reflexivity).
  assert (phase invocation_wait ≠ Delivered) as Hph by discriminate.
  assert (stop 1 world_wait = Some world_wait_stopped) as Hstop
    by (vm_compute; reflexivity).
  assert (run config0 schedule_handover world_wait_stopped
            = Some world_handover) as Hrun2
    by (vm_compute; reflexivity).
  destruct (stop_before_delivery_never_starts config0
              schedule_wait world_wait 1 invocation_wait world_wait_stopped
              schedule_handover world_handover Hrun1 Hi Hph Hstop Hrun2)
    as (Hpend & i2 & Hi2 & _ & Hst & _).
  split; [exact Hrun1|]. split; [exact Hi|]. split; [exact Hph|].
  split; [exact Hstop|]. split; [exact Hrun2|]. split; [exact Hpend|].
  split.
  - unfold invocation_of. rewrite Hi2. exact Hst.
  - vm_compute. reflexivity.
Defined.

(** C9, as stated, fails: context 0 starts exclusively, stops, and the
    lock is released; nobody holds "db1" and nobody waits for it, yet the
    entry for "db1" is still in context 0's [locks] map. *)
Lemma idle_ticket_is_kept : ¬ ticket_destroyed_when_idle config0.
Proof.
  intros H.
  assert (run config0 schedule_idle init = Some world_idle) as Hrun
    by (vm_compute; reflexivity).
  assert (held world_idle !! "db1" = None) as Hheld
    by (vm_compute; reflexivity).
  assert (pending world_idle = []) as Hpend by reflexivity.
  assert (locks world_idle !! (0, "db1") = Some 0) as Hlocks
    by (vm_compute; reflexivity).
  specialize (H schedule_idle world_idle 0 "db1" Hrun Hheld).
  rewrite H in Hlocks; [discriminate Hlocks|].
  intros c i Hc. rewrite Hpend in Hc. by apply elem_of_nil in Hc.
Qed.

(** An instance: after context 0 has started, stopped and released, its
    entry is there; context 1, which never asked, has none. *)
Lemma locks_entry_created_never_removed_witness :
  run config0 schedule_idle init = Some world_idle ∧
  is_Some (locks world_idle !! (0, "db1")) ∧
  ¬ is_Some (locks world_idle !! (1, "db1")).
Proof.
  assert (run config0 schedule_idle init = Some world_idle) as Hrun
    by (vm_compute; reflexivity).
  split; [exact Hrun|]. split.
  - apply (locks_entry_created_never_removed config0 schedule_idle
             world_idle 0 "db1" Hrun).
    exists tt. apply elem_of_cons. by left.
  - intros [r Hr]. vm_compute in Hr. discriminate Hr.
Defined.

(** An instance: context 0 holds the lock for its first call and calls
    again; after both controllers were stopped the second [hold] is
    resolved and the first, whose lock is held, is not. *)
Lemma second_call_overwrites_releaser_witness :
  run config0 schedule_first (createSyncedDB_Exclusive 0 "db1" tt init)
    = Some world_first ∧
  createSyncedDB_Exclusive 0 "db1" tt world_first = world_second ∧
  locks world_second !! (0, "db1") = Some 1 ∧
  run config0 [Stop 1; Stop 0] world_second = Some world_second_stopped ∧
  holdResolved <$> invocations world_second_stopped !! 0 = Some false ∧
  holdResolved <$> invocations world_second_stopped !! 1 = Some true.
Proof.
  assert (run config0 [] init = Some init) as Hrun0 by reflexivity.
  assert (run config0 schedule_first
            (createSyncedDB_Exclusive 0 "db1" tt init) = Some world_first)
    as Hmid by (vm_compute; reflexivity).
  assert (createSyncedDB_Exclusive 0 "db1" tt world_first = world_second)
    as Hw2 by (vm_compute; reflexivity).
  assert (run config0 [Stop 1; Stop 0] world_second
            = Some world_second_stopped) as Hrun
    by (vm_compute; reflexivity).
  destruct (second_call_overwrites_releaser config0 [] init 0 "db1" tt tt
              schedule_first world_first Hrun0 Hmid)
    as (_ & Hlocks & _ & Hhold).
  rewrite Hw2 in Hlocks, Hhold.
  split; [exact Hmid|]. split; [exact Hw2|].
  split; [vm_compute in Hlocks; exact Hlocks|].
  split; [exact Hrun|]. split.
  - etrans; [exact (Hhold [Stop 1; Stop 0] world_second_stopped Hrun)|].
    vm_compute. reflexivity.
  - vm_compute. reflexivity.
Defined.

(** * Further properties of the session *)

(** X1: when one of the two queries of [start] is rejected, [start]
    throws and the session is as before: nothing is sent, the inbound
    stream is not primed and the transport is untouched. A rejected
    frontier query ends [start] before the schema is asked for. *)
Theorem start_rejected_announces_nothing (s : Session) :
  getLastSeens (db s) = None ∨ getSchemaNameAndVersion (db s) = None →
  let s' := (SyncedDB.start s).1 in
  (SyncedDB.start s).2 = None ∧
  db s' = db s ∧
  transport s' = transport s ∧
  inboundStream s' = inboundStream s ∧
  outboundStream s' = outboundStream s ∧
  (getLastSeens (db s) = None → start_calls s = [CallGetLastSeens]) ∧
  (getLastSeens (db s) ≠ None →
     start_calls s = [CallGetLastSeens; CallGetSchemaNameAndVersion]).
Proof.
  intros Hrej. unfold start_calls. run_method.
  destruct (getLastSeens (db s)) as [f|] eqn:Hf; simpl.
  - destruct Hrej as [Hrej|Hrej]; [discriminate Hrej|].
    rewrite Hrej. simpl.
    destruct (transport s), (inboundStream s), (outboundStream s).
    rewrite <- !app_assoc, drop_app_length.
    repeat split; try done.
  - destruct (transport s), (inboundStream s), (outboundStream s).
    rewrite drop_app_length. repeat split; try done.
Qed.

(** An instance: a handle whose schema query is rejected. *)
Lemma start_rejected_announces_nothing_witness :
  let s := SyncedDB.constructor db_no_schema t0 in
  (SyncedDB.start s).2 = None ∧
  transport (SyncedDB.start s).1 = transport s ∧
  inboundStream (SyncedDB.start s).1 = inboundStream s.
Proof.
  intros s.
  destruct (start_rejected_announces_nothing s (or_intror eq_refl))
    as (H1 & _ & H2 & H3 & _).
  auto.
Defined.

(** X2: the life of a session from [createSyncedDB]. As returned it is
    wired and idle: nothing was asked of the database handle, nothing
    sent. [start] then [stop] make the six collaborator calls in order.
    [stop] keeps no flag and leaves the callback slots wired, so a later
    [start] goes through again and announces presence a second time on
    the transport that was closed. *)
Theorem createSyncedDB_lifecycle {T} (config : Config T) (name : string)
    (opts : T) (d : DB) (f : VersionFrontier) (n : string) (v : Z) :
  dbProvider config name = Some d →
  getLastSeens d = Some f →
  getSchemaNameAndVersion d = Some (n, v) →
  let t := transportProvider config name opts in
  let m := {| _tag := AnnouncePresence; lastSeens := f; schemaName := n;
              schemaVersion := v; sender := siteid d |} in
  let once := [CallGetLastSeens; CallGetSchemaNameAndVersion;
               CallPrepare f; CallAnnouncePresence m] in
  ∃ s0, createSyncedDB config name opts = Some s0 ∧
    let s1 := (SyncedDB.start s0).1 in
    let s2 := (SyncedDB.stop s1).1 in
    let s3 := (SyncedDB.start s2).1 in
    calls s0 = [] ∧ sent (transport s0) = sent t ∧
    SyncedDB.running s0 = false ∧
    SyncedDB.running s1 = true ∧
    SyncedDB.running s2 = false ∧
    calls s2 = once ++ [CallOutboundStop; CallClose] ∧
    sent (transport s2) = sent t ++ [MsgAnnouncePresence m] ∧
    closeCalls (transport s2) = S (closeCalls t) ∧
    onChangesReceived (transport s2) = Some receiveChangesHandler ∧
    (SyncedDB.start s2).2 = Some tt ∧
    calls s3 = once ++ [CallOutboundStop; CallClose] ++ once ∧
    sent (transport s3) =
      sent t ++ [MsgAnnouncePresence m; MsgAnnouncePresence m].
Proof.
  intros Hd Hf Hs t m once. unfold createSyncedDB. rewrite Hd. simpl.
  eexists. split; [reflexivity|]. cbv zeta.
  run_method. rewrite Hf. simpl. rewrite Hs. simpl.
  rewrite Hf. simpl. rewrite Hs. simpl.
  rewrite <- !app_assoc. simpl. repeat split; done.
Qed.

(** An instance: the providers of [config0]. *)
Lemma createSyncedDB_lifecycle_witness :
  ∃ s0, createSyncedDB config0 "db1" tt = Some s0 ∧
    SyncedDB.running (SyncedDB.start s0).1 = true ∧
    SyncedDB.running (SyncedDB.stop (SyncedDB.start s0).1).1 = false.
Proof.
  destruct (createSyncedDB_lifecycle config0 "db1" tt db0
              {[ "b2" := 4%Z ]} "notes" 7%Z eq_refl eq_refl eq_refl)
    as (s0 & Hs0 & _ & _ & _ & H1 & H2 & _).
  exists s0. auto.
Defined.

(** * Further properties of the exclusive start *)

Section ExclusiveMore.
Context {T : Type} (config : Config T).

Implicit Types (w : World T) (i : Invocation T) (l : @Label T) (c : nat).

(** What a step does to the lock manager's table of holders. *)
Lemma step_held l w w' :
  step config l w = Some w' →
  held w' =
    match l with
    | Grant c0 =>
        match invocations w !! c0 with
        | Some i0 =>
            if stopRequested i0 then held w
            else <[dbname i0 := c0]> (held w)
        | None => held w
        end
    | Release c0 =>
        match invocations w !! c0 with
        | Some i0 => delete (dbname i0) (held w)
        | None => held w
        end
    | _ => held w
    end.
Proof.
  intros Hstep. destruct (step_frame config _ _ _ Hstep) as (_ & _ & _).
  destruct l as [cx name o|c0|c0|c0|c0|c0]; simpl in *.
  - by injection Hstep as <-.
  - unfold lockCallback in Hstep.
    destruct (invocations w !! c0) as [i0|]; [|done]. simpl in Hstep.
    case_bool_decide; [|done].
    destruct (stopRequested i0); by injection Hstep as <-.
  - unfold createSyncedDB_fulfilled in Hstep.
    destruct (invocations w !! c0) as [i0|]; [|done]. simpl in Hstep.
    case_bool_decide; [|done].
    destruct (createSyncedDB config (dbname i0) (transportOptions i0));
      [|done].
    by injection Hstep as <-.
  - unfold startSync_then in Hstep.
    destruct (invocations w !! c0) as [i0|]; [|done]. simpl in Hstep.
    case_bool_decide; [|done].
    destruct (session i0); [|done]. simpl in Hstep.
    destruct (cb i0 c0). by injection Hstep as <-.
  - unfold stop in Hstep.
    destruct (invocations w !! c0) as [i0|]; [|done]. simpl in Hstep.
    destruct (locks w !! (ctx i0, dbname i0)); destruct (dbVar i0);
      simpl in Hstep; by injection Hstep as <-.
  - unfold releaseLock in Hstep.
    destruct (invocations w !! c0) as [i0|]; [|done]. simpl in Hstep.
    case_bool_decide; [|done]. simpl in Hstep.
    destruct (holdResolved i0); [|done]. by injection Hstep as <-.
Qed.

Lemma stopped_by_phase w c0 i0 c i :
  phase (stopped_by w c0 i0 c i) = phase i.
Proof.
  unfold stopped_by.
  destruct (locks w !! (ctx i0, dbname i0)); destruct (dbVar i0);
    repeat case_decide; done.
Qed.

Lemma stopped_by_hold w c0 i0 c i :
  holdResolved (stopped_by w c0 i0 c i) = false → holdResolved i = false.
Proof.
  unfold stopped_by.
  destruct (locks w !! (ctx i0, dbname i0)); destruct (dbVar i0);
    repeat case_decide; done.
Qed.

(** *** Who holds the lock *)

Lemma step_holders_hold l w w' :
  step config l w = Some w' → holders_hold w → holders_hold w'.
Proof.
  intros Hstep IH c i' Hi' [Hph Hres].
  pose proof (step_enabled config _ _ _ Hstep) as Hen.
  rewrite (step_held _ _ _ Hstep).
  destruct (step_lookup config _ _ _ _ _ Hstep Hi')
    as [(i & Hi & ->)|(cx & name & o & -> & -> & ->)];
    [|simpl in Hph; destruct Hph as [Hp|[Hp|Hp]]; discriminate Hp].
  specialize (IH c i Hi). unfold holding in IH.
  destruct (after_identity config l w c i) as (_ & -> & _).
  destruct l as [cx name o|c0|c0|c0|c0|c0]; simpl in *.
  - by apply IH.
  - destruct Hen as (_ & i0 & Hi0 & Hfree). rewrite Hi0.
    case_decide as Hc.
    + subst c0. assert (i0 = i) as -> by congruence.
      destruct (stopRequested i); simpl in Hph;
        [destruct Hph as [Hp|[Hp|Hp]]; discriminate Hp|].
      by rewrite lookup_insert_eq.
    + specialize (IH (conj Hph Hres)).
      destruct (stopRequested i0); [done|].
      rewrite lookup_insert_ne; [done|]. intros Hn. congruence.
  - destruct Hen as (i0 & Hi0 & Hph0).
    case_decide as Hc; [subst c0|by apply IH].
    assert (i0 = i) as -> by congruence.
    apply IH. split; [by left|].
    by destruct (createSyncedDB config (dbname i) (transportOptions i)).
  - destruct Hen as (i0 & Hi0 & Hph0).
    case_decide as Hc; [subst c0|by apply IH].
    assert (i0 = i) as -> by congruence.
    apply IH. split; [by right; left|].
    unfold delivered in Hres. destruct (session i); [|done].
    pose proof (cb_frame i c) as Hcb. destruct (cb i c). simpl in *.
    destruct Hcb as (_ & _ & _ & _ & <- & _). done.
  - destruct Hen as (i0 & Hi0). rewrite Hi0 in *.
    rewrite stopped_by_phase in Hph. apply stopped_by_hold in Hres.
    by apply IH.
  - destruct Hen as (i0 & Hi0 & Hheld & Hres0). rewrite Hi0.
    specialize (IH (conj Hph Hres)).
    rewrite lookup_delete_ne; [done|]. intros Hn.
    rewrite Hn in Hheld. assert (c0 = c) as -> by congruence.
    congruence.
Qed.

Lemma run_holders_hold ls w w' :
  run config ls w = Some w' → holders_hold w → holders_hold w'.
Proof.
  revert w. induction ls as [|l ls IH]; intros w Hrun Hh; simpl in Hrun.
  - by injection Hrun as <-.
  - destruct (step config l w) as [w1|] eqn:Hstep; [|done].
    simpl in Hrun. eapply IH; [done|]. by eapply step_holders_hold.
Qed.

(** X3: in every world an execution reaches, a call that is past its lock
    callback and whose [hold] nobody has resolved holds the lock of its
    database name; so among the calls of all contexts for one name at most
    one is in that state. *)
Theorem unresolved_hold_keeps_lock ls w c1 i1 :
  run config ls init = Some w →
  invocations w !! c1 = Some i1 →
  holding i1 →
  held w !! dbname i1 = Some c1 ∧
  ∀ c2 i2, invocations w !! c2 = Some i2 → dbname i2 = dbname i1 →
    holding i2 → c2 = c1.
Proof.
  intros Hrun Hi1 Hh1.
  assert (holders_hold w) as Hw.
  { eapply run_holders_hold; [done|]. intros c i Hi. simpl in Hi.
    by rewrite lookup_nil in Hi. }
  split; [by apply Hw|].
  intros c2 i2 Hi2 Hn Hh2.
  pose proof (Hw c1 i1 Hi1 Hh1) as H1. pose proof (Hw c2 i2 Hi2 Hh2) as H2.
  rewrite Hn in H2. congruence.
Qed.
(** *** The session of a call *)




(** *** The reach of a controller's stop *)

Lemma step_keys_own l w w' :
  step config l w = Some w' → keys_own w → keys_own w'.
Proof.
  intros Hstep IH k r Hr.
  destruct (step_frame config _ _ _ Hstep) as (Hlocks & _ & _).
  rewrite Hlocks in Hr.
  assert (∀ k r, locks w !! k = Some r →
            ∃ i, invocations w' !! r = Some i ∧ k = (ctx i, dbname i))
    as Hold.
  { intros k' r' Hr'. destruct (IH k' r' Hr') as (i & Hi & ->).
    exists (after config l w r' i).
    split; [by eapply step_after|].
    by destruct (after_identity config l w r' i) as (-> & -> & _). }
  destruct l as [cx name o| | | | |]; try by apply Hold.
  rewrite lookup_insert in Hr. case_decide as Hk; [|by apply Hold].
  injection Hr as <-. subst k. simpl in Hstep. injection Hstep as <-.
  simpl. exists (fresh cx name o).
  split; [by apply list_lookup_middle|done].
Qed.

Lemma run_keys_own ls w w' :
  run config ls w = Some w' → keys_own w → keys_own w'.
Proof.
  revert w. induction ls as [|l ls IH]; intros w Hrun Hk; simpl in Hrun.
  - by injection Hrun as <-.
  - destruct (step config l w) as [w1|] eqn:Hstep; [|done].
    simpl in Hrun. eapply IH; [done|]. by eapply step_keys_own.
Qed.

Lemma keys_own_init : keys_own (init (T := T)).
Proof. intros k r Hr. simpl in Hr. by rewrite lookup_empty in Hr. Qed.

(** X5: a controller's [stop] reaches two calls at most, its own and the
    one whose releaser is registered for its context and name, which is a
    call of the same context for the same name. The calls of other
    contexts and for other names, every [locks] map, the lock manager's
    holders and its queue are left as they are. *)
Theorem stop_stays_within_context_and_name ls w c0 i0 w' :
  run config ls init = Some w →
  invocations w !! c0 = Some i0 →
  stop c0 w = Some w' →
  locks w' = locks w ∧ held w' = held w ∧ pending w' = pending w ∧
  (∃ r ir, locks w !! (ctx i0, dbname i0) = Some r ∧
           invocations w !! r = Some ir ∧
           ctx ir = ctx i0 ∧ dbname ir = dbname i0 ∧
           ∀ c, c ≠ c0 → c ≠ r →
             invocations w' !! c = invocations w !! c) ∧
  (∀ c i, invocations w !! c = Some i →
     ctx i ≠ ctx i0 ∨ dbname i ≠ dbname i0 →
     invocations w' !! c = Some i).
Proof.
  intros Hrun Hi0 Hstop.
  pose proof (reachable_Good config _ _ Hrun) as Hg.
  pose proof (run_keys_own _ _ _ Hrun keys_own_init) as Hk.
  destruct (stop_unfold_Good config w c0 i0 Hg Hi0) as (r & Hr & Hw').
  rewrite Hw' in Hstop. injection Hstop as <-.
  destruct (Hk _ _ Hr) as (ir & Hir & Hkey). injection Hkey as Hc Hn.
  assert (∀ c, c ≠ c0 → c ≠ r →
            invocations
              (set_invocation r resolve_hold
                 (set_invocation c0 (set_stopRequested true) w)) !! c
            = invocations w !! c) as Hrest.
  { intros c Hc0 Hcr. rewrite !lookup_set_invocation.
    by rewrite !decide_False by done. }
  split; [done|]. split; [done|]. split; [done|]. split.
  - exists r, ir. eauto.
  - intros c i Hi Hne. rewrite Hrest; [done| |]; intros ->.
    + assert (i = i0) as -> by congruence. by destruct Hne.
    + assert (i = ir) as -> by congruence.
      destruct Hne as [Hne|Hne]; congruence.
Qed.

Lemma alter_stop_twice (l : list (Invocation T)) c r :
  alter resolve_hold r (alter (set_stopRequested true) c
    (alter resolve_hold r (alter (set_stopRequested true) c l))) =
  alter resolve_hold r (alter (set_stopRequested true) c l).
Proof.
  apply list_eq. intros j.
  destruct (decide (r = j)) as [->|Hr], (decide (c = j)) as [->|Hc];
    repeat (rewrite list_lookup_alter_eq
            || rewrite list_lookup_alter_ne by done);
    destruct (l !! j) as [[]|]; reflexivity.
Qed.

(** X6: the controller's [stop] is idempotent: in a world an execution
    reaches, a second [stop] on the same controller changes nothing. *)
Theorem controller_stop_idempotent ls w c w1 :
  run config ls init = Some w →
  stop c w = Some w1 →
  stop c w1 = Some w1.
Proof.
  intros Hrun Hstop.
  pose proof (reachable_Good config _ _ Hrun) as Hg.
  assert (step config (Stop c) w = Some w1) as Hstep by done.
  destruct (step_enabled config _ _ _ Hstep) as (i & Hi).
  pose proof (step_Good config _ _ _ Hg Hstep) as Hg1.
  pose proof (step_after config _ _ _ _ _ Hstep Hi) as Hi1.
  destruct (after_identity config (Stop c) w c i) as (Hc & Hn & _).
  destruct (stop_unfold_Good config w c i Hg Hi) as (r & Hr & Hw1).
  destruct (stop_unfold_Good config w1 c _ Hg1 Hi1) as (r1 & Hr1 & Hw2).
  rewrite Hc, Hn in Hr1.
  destruct (step_frame config _ _ _ Hstep) as (Hlocks & _ & _).
  rewrite Hlocks, Hr in Hr1. injection Hr1 as <-.
  rewrite Hw2. f_equal.
  rewrite Hw1 in Hstop. injection Hstop as <-.
  unfold set_invocation. simpl. f_equal. apply alter_stop_twice.
Qed.

(** *** How long a lock is kept *)

(** A [hold] is resolved only by a [stop] of a controller of the same
    context for the same name. *)
Lemma run_hold_resolved_by_stop ls w0 w c i :
  keys_own w0 →
  run config ls w0 = Some w →
  invocations w !! c = Some i →
  holdResolved i = true →
  (∃ i0, invocations w0 !! c = Some i0 ∧ holdResolved i0 = true) ∨
  (∃ c0 i0, Stop c0 ∈ ls ∧ invocations w !! c0 = Some i0 ∧
            ctx i0 = ctx i ∧ dbname i0 = dbname i).
Proof.
  revert w0. induction ls as [|l ls IH]; intros w0 Hk Hrun Hi Hres;
    simpl in Hrun.
  - injection Hrun as <-. left. eauto.
  - destruct (step config l w0) as [w1|] eqn:Hstep; [|done].
    simpl in Hrun.
    destruct (IH w1 (step_keys_own _ _ _ Hstep Hk) Hrun Hi Hres)
      as [(i1 & Hi1 & Hres1)|(c0 & i0 & Hin & Hi0 & Hc & Hn)].
    + destruct (step_lookup config _ _ _ _ _ Hstep Hi1)
        as [(j & Hj & ->)|(cx & name & o & -> & -> & ->)]; [|done].
      destruct (after_holdResolved config l w0 c j)
        as [Heq|(c0 & j0 & -> & Hj0 & Hr)].
      * left. exists j. split; [done|]. congruence.
      * right. destruct (Hk _ _ Hr) as (j' & Hj' & Hkey).
        assert (j' = j) as -> by congruence. injection Hkey as Hc Hn.
        assert (run config (Stop c0 :: ls) w0 = Some w) as Hrun0.
        { change (step config (Stop c0) w0 ≫= run config ls = Some w).
          by rewrite Hstep. }
        destruct (run_identity config _ _ _ _ _ Hrun0 Hj0)
          as (i0 & Hi0 & Hc0 & Hn0).
        destruct (run_identity config _ _ _ _ _ Hrun0 Hj)
          as (i' & Hi' & Hc' & Hn').
        assert (i' = i) as -> by congruence.
        exists c0, i0. split; [apply elem_of_cons; by left|].
        split; [done|]. split; congruence.
    + right. exists c0, i0. split; [apply elem_of_cons; by right|done].
Qed.

(** X7: a call whose lock callback has called [startSync] keeps the lock
    of its name for as long as no controller of its own context for that
    name has been stopped: whatever else happened, in other contexts or
    for other names, its [hold] is unresolved and it is the holder. *)
Theorem lock_kept_until_stop ls w c i :
  run config ls init = Some w →
  invocations w !! c = Some i →
  phase i = Creating ∨ phase i = Constructed ∨ phase i = Delivered →
  (∀ c0 i0, Stop c0 ∈ ls → invocations w !! c0 = Some i0 →
     ctx i0 ≠ ctx i ∨ dbname i0 ≠ dbname i) →
  holdResolved i = false ∧ held w !! dbname i = Some c.
Proof.
  intros Hrun Hi Hph Hno.
  assert (holdResolved i = false) as Hres.
  { apply not_true_is_false. intros Hres.
    destruct (run_hold_resolved_by_stop _ _ _ _ _ keys_own_init Hrun Hi Hres)
      as [(i0 & Hi0 & _)|(c0 & i0 & Hin & Hi0 & Hc & Hn)].
    - simpl in Hi0. by rewrite lookup_nil in Hi0.
    - destruct (Hno c0 i0 Hin Hi0); congruence. }
  split; [done|].
  assert (holders_hold w) as Hw.
  { eapply run_holders_hold; [done|]. intros c' i' Hi'. simpl in Hi'.
    by rewrite lookup_nil in Hi'. }
  by apply Hw.
Qed.

(** *** Handing the lock over *)

Lemma run_cons l ls w w1 :
  step config l w = Some w1 →
  run config (l :: ls) w = run config ls w1.
Proof.
  intros Hstep. change (step config l w ≫= run config ls = run config ls w1).
  by rewrite Hstep.
Qed.

Lemma releaseLock_enabled w c i :
  invocations w !! c = Some i →
  held w !! dbname i = Some c →
  holdResolved i = true →
  releaseLock c w =
    Some {| invocations := invocations w; locks := locks w;
            held := delete (dbname i) (held w); pending := pending w |}.
Proof.
  intros Hi Hh Hres. unfold releaseLock. rewrite Hi. simpl.
  rewrite bool_decide_eq_true_2 by done. simpl. by rewrite Hres.
Qed.

Lemma lockCallback_enabled w c i :
  invocations w !! c = Some i →
  c ∈ pending w →
  held w !! dbname i = None →
  stopRequested i = false →
  lockCallback c w =
    Some (set_invocation c (set_phase Creating)
            {| invocations := invocations w; locks := locks w;
               held := <[dbname i := c]> (held w);
               pending := filter (λ r, r ≠ c) (pending w) |}).
Proof.
  intros Hi Hp Hh Hsr. unfold lockCallback. rewrite Hi. simpl.
  rewrite bool_decide_eq_true_2 by done. by rewrite Hsr.
Qed.

Lemma createSyncedDB_fulfilled_enabled w c i d :
  invocations w !! c = Some i →
  phase i = Creating →
  dbProvider config (dbname i) = Some d →
  createSyncedDB_fulfilled config c w =
    Some (set_invocation c
            (λ j, set_phase Constructed
                    (set_session
                       (Some (SyncedDB.constructor d
                          (transportProvider config (dbname i)
                             (transportOptions i)))) j)) w).
Proof.
  intros Hi Hph Hd. unfold createSyncedDB_fulfilled. rewrite Hi. simpl.
  rewrite bool_decide_eq_true_2 by done.
  unfold createSyncedDB. rewrite Hd. done.
Qed.

Lemma startSync_then_enabled w c i s :
  invocations w !! c = Some i →
  phase i = Constructed →
  session i = Some s →
  stopRequested i = false →
  startSync_then c w =
    Some (set_invocation c
            (λ _, set_phase Delivered
                    (set_session (Some (SyncedDB.start s).1)
                       (set_dbVar (dbVar i) i))) w).
Proof.
  intros Hi Hph Hs Hsr. unfold startSync_then. rewrite Hi. simpl.
  rewrite bool_decide_eq_true_2 by done. rewrite Hs. simpl.
  unfold cb. by rewrite Hsr.
Qed.

(** X8: when the holder of a lock, whose releaser is the one registered
    for its context and name, stops its controller, the lock can be
    released, a waiting call for the same name that was not stopped can be
    granted the lock, and if the database provider delivers, the session
    of that call gets started: the schedule stop, release, grant, fulfil,
    then is enabled and ends with the waiting call as holder and its
    session started. *)
Theorem stop_hands_lock_to_waiting_call ls w c i c' i' d :
  run config ls init = Some w →
  invocations w !! c = Some i →
  held w !! dbname i = Some c →
  locks w !! (ctx i, dbname i) = Some c →
  c' ≠ c →
  c' ∈ pending w →
  invocations w !! c' = Some i' →
  dbname i' = dbname i →
  stopRequested i' = false →
  dbProvider config (dbname i) = Some d →
  ∃ w' i2,
    run config [Stop c; Release c; Grant c'; Fulfil c'; Then c'] w
      = Some w' ∧
    held w' !! dbname i = Some c' ∧
    invocations w' !! c' = Some i2 ∧
    phase i2 = Delivered ∧
    started i2 = true ∧
    session i2 =
      Some (SyncedDB.start
              (SyncedDB.constructor d
                 (transportProvider config (dbname i')
                    (transportOptions i')))).1.
Proof.
  intros Hrun Hi Hheld Hlocks Hne Hpend Hi' Hn Hsr Hd.
  pose proof (reachable_Good config _ _ Hrun) as Hg.
  destruct (stop_unfold_Good config w c i Hg Hi) as (r & Hr & Hstop).
  rewrite Hlocks in Hr. injection Hr as <-.
  set (w1 := set_invocation c resolve_hold
               (set_invocation c (set_stopRequested true) w)) in *.
  assert (invocations w1 !! c =
            Some (resolve_hold (set_stopRequested true i))) as Hc1.
  { subst w1. rewrite !lookup_set_invocation.
    rewrite !decide_True by done. by rewrite Hi. }
  assert (invocations w1 !! c' = Some i') as Hc'1.
  { subst w1. rewrite !lookup_set_invocation.
    by rewrite !decide_False by done. }
  pose proof (releaseLock_enabled w1 c _ Hc1 Hheld eq_refl) as Hrel.
  simpl in Hrel.
  set (w2 := {| invocations := invocations w1; locks := locks w1;
                held := delete (dbname i) (held w1);
                pending := pending w1 |}) in *.
  assert (held w2 !! dbname i' = None) as Hfree
    by (subst w2; simpl; rewrite Hn; apply lookup_delete_eq).
  pose proof (lockCallback_enabled w2 c' i' Hc'1 Hpend Hfree Hsr) as Hgrant.
  set (w3 := set_invocation c' (set_phase Creating)
               {| invocations := invocations w2; locks := locks w2;
                  held := <[dbname i' := c']> (held w2);
                  pending := filter (λ r, r ≠ c') (pending w2) |}) in *.
  assert (invocations w3 !! c' = Some (set_phase Creating i')) as Hc'3.
  { subst w3. rewrite lookup_set_invocation. rewrite decide_True by done.
    change (set_phase Creating <$> invocations w1 !! c' =
              Some (set_phase Creating i')).
    by rewrite Hc'1. }
  rewrite <- Hn in Hd.
  pose proof (createSyncedDB_fulfilled_enabled w3 c' _ d Hc'3 eq_refl Hd)
    as Hful. simpl in Hful.
  set (s0 := SyncedDB.constructor d
               (transportProvider config (dbname i') (transportOptions i')))
    in *.
  set (w4 := set_invocation c'
               (λ j, set_phase Constructed (set_session (Some s0) j)) w3)
    in *.
  assert (invocations w4 !! c' =
            Some (set_phase Constructed
                    (set_session (Some s0) (set_phase Creating i'))))
    as Hc'4.
  { subst w4. rewrite lookup_set_invocation. rewrite decide_True by done.
    by rewrite Hc'3. }
  pose proof (startSync_then_enabled w4 c' _ s0 Hc'4 eq_refl eq_refl Hsr)
    as Hthen.
  set (i2 := set_phase Delivered
               (set_session (Some (SyncedDB.start s0).1)
                  (set_dbVar
                     (dbVar (set_phase Constructed
                               (set_session (Some s0)
                                  (set_phase Creating i'))))
                     (set_phase Constructed
                        (set_session (Some s0) (set_phase Creating i'))))))
    in *.
  set (w5 := set_invocation c' (λ _, i2) w4) in *.
  exists w5, i2. split.
  { rewrite (run_cons (Stop c) _ w w1 Hstop).
    rewrite (run_cons (Release c) _ w1 w2 Hrel).
    rewrite (run_cons (Grant c') _ w2 w3 Hgrant).
    rewrite (run_cons (Fulfil c') _ w3 w4 Hful).
    by rewrite (run_cons (Then c') _ w4 w5 Hthen). }
  split.
  { change (<[dbname i' := c']> (held w2) !! dbname i = Some c').
    rewrite <- Hn. apply lookup_insert_eq. }
  split.
  { subst w5. rewrite lookup_set_invocation. rewrite decide_True by done.
    by rewrite Hc'4. }
  split; [done|]. split; [|done].
  unfold started. subst i2. simpl.
  destruct (start_frame s0) as (-> & _).
  apply bool_decide_eq_true_2. lia.
Qed.

(** *** A lock that is never released *)




End ExclusiveMore.

(** An instance: context 0 holds the lock of "db1" while context 1
    waits. *)
Lemma unresolved_hold_keeps_lock_witness :
  run config0 schedule_wait init = Some world_wait ∧
  holding (invocation_of 0 world_wait) ∧
  held world_wait !! "db1" = Some 0.
Proof.
  assert (run config0 schedule_wait init = Some world_wait) as Hrun
    by (vm_compute; reflexivity).
  assert (invocations world_wait !! 0 = Some (invocation_of 0 world_wait))
    as Hi by (vm_compute; reflexivity).
  assert (holding (invocation_of 0 world_wait)) as Hh
    by (split; [by left|reflexivity]).
  destruct (unresolved_hold_keeps_lock config0 schedule_wait world_wait 0
              _ Hrun Hi Hh) as [Hheld _].
  split; [exact Hrun|]. split; [exact Hh|]. exact Hheld.
Defined.


(** An instance: context 0 stops the controller of its started session. *)
Lemma stop_stays_within_context_and_name_witness :
  run config0 (Create 0 "db1" tt :: schedule_first) init = Some world_first ∧
  invocations world_first !! 0 = Some (invocation_of 0 world_first) ∧
  stop 0 world_first = Some world_stop ∧
  locks world_stop = locks world_first ∧
  held world_stop = held world_first.
Proof.
  assert (run config0 (Create 0 "db1" tt :: schedule_first) init
            = Some world_first) as Hrun by (vm_compute; reflexivity).
  assert (invocations world_first !! 0 = Some (invocation_of 0 world_first))
    as Hi by (vm_compute; reflexivity).
  assert (stop 0 world_first = Some world_stop) as Hstop
    by (vm_compute; reflexivity).
  destruct (stop_stays_within_context_and_name config0 _ world_first 0 _
              world_stop Hrun Hi Hstop) as (Hl & Hh & _).
  split; [exact Hrun|]. split; [exact Hi|]. split; [exact Hstop|].
  split; [exact Hl|exact Hh].
Defined.

(** An instance: a second [stop] on the controller of context 0. *)
Lemma controller_stop_idempotent_witness :
  run config0 (Create 0 "db1" tt :: schedule_first) init = Some world_first ∧
  stop 0 world_first = Some world_stop ∧
  stop 0 world_stop = Some world_stop.
Proof.
  assert (run config0 (Create 0 "db1" tt :: schedule_first) init
            = Some world_first) as Hrun by (vm_compute; reflexivity).
  assert (stop 0 world_first = Some world_stop) as Hstop
    by (vm_compute; reflexivity).
  split; [exact Hrun|]. split; [exact Hstop|].
  exact (controller_stop_idempotent config0 _ world_first 0 world_stop
           Hrun Hstop).
Defined.

(** An instance: context 0 has started and nobody has stopped. *)
Lemma lock_kept_until_stop_witness :
  run config0 schedule_started_waiting init = Some world_started_waiting ∧
  holdResolved (invocation_of 0 world_started_waiting) = false ∧
  held world_started_waiting !! "db1" = Some 0.
Proof.
  assert (run config0 schedule_started_waiting init
            = Some world_started_waiting) as Hrun
    by (vm_compute; reflexivity).
  assert (invocations world_started_waiting !! 0
            = Some (invocation_of 0 world_started_waiting)) as Hi
    by (vm_compute; reflexivity).
  assert (∀ c0 i0, Stop c0 ∈ schedule_started_waiting →
            invocations world_started_waiting !! c0 = Some i0 →
            ctx i0 ≠ ctx (invocation_of 0 world_started_waiting) ∨
            dbname i0 ≠ dbname (invocation_of 0 world_started_waiting))
    as Hno.
  { intros c0 i0 Hin _. unfold schedule_started_waiting in Hin.
    repeat (apply elem_of_cons in Hin as [Hin|Hin]; [discriminate Hin|]).
    by apply elem_of_nil in Hin. }
  destruct (lock_kept_until_stop config0 schedule_started_waiting
              world_started_waiting 0 _ Hrun Hi
              (or_intror (or_intror eq_refl)) Hno) as [Hres Hheld].
  split; [exact Hrun|]. split; [exact Hres|exact Hheld].
Defined.

(** An instance: context 0 stops while context 1 waits. *)
Lemma stop_hands_lock_to_waiting_call_witness :
  run config0 schedule_started_waiting init = Some world_started_waiting ∧
  ∃ w' i2,
    run config0 [Stop 0; Release 0; Grant 1; Fulfil 1; Then 1]
      world_started_waiting = Some w' ∧
    held w' !! "db1" = Some 1 ∧
    invocations w' !! 1 = Some i2 ∧
    started i2 = true.
Proof.
  assert (run config0 schedule_started_waiting init
            = Some world_started_waiting) as Hrun
    by (vm_compute; reflexivity).
  assert (invocations world_started_waiting !! 0
            = Some (invocation_of 0 world_started_waiting)) as Hi
    by (vm_compute; reflexivity).
  assert (invocations world_started_waiting !! 1
            = Some (invocation_of 1 world_started_waiting)) as Hi'
    by (vm_compute; reflexivity).
  assert (held world_started_waiting
            !! dbname (invocation_of 0 world_started_waiting) = Some 0)
    as Hheld by (vm_compute; reflexivity).
  assert (locks world_started_waiting
            !! (ctx (invocation_of 0 world_started_waiting),
                dbname (invocation_of 0 world_started_waiting)) = Some 0)
    as Hlocks by (vm_compute; reflexivity).
  assert (1 ∈ pending world_started_waiting) as Hpend
    by (apply list_elem_of_In; vm_compute; by left).
  destruct (stop_hands_lock_to_waiting_call config0
              schedule_started_waiting world_started_waiting 0 _ 1 _ db0
              Hrun Hi Hheld Hlocks ltac:(discriminate) Hpend Hi'
              eq_refl eq_refl eq_refl)
    as (w' & i2 & Hrun' & Hheld' & Hi2 & _ & Hst & _).
  split; [exact Hrun|]. exists w', i2.
  split; [exact Hrun'|]. split; [exact Hheld'|].
  split; [exact Hi2|exact Hst].
Defined.

